(** * AR Cities (horizon_ar): orientation smoothing, projection and label layout

    A shallow embedding of [geo.ts], [projection.ts], [sensors.ts] and
    [renderer.ts].  JavaScript numbers are modelled as exact rationals [Q]:
    every finite double is a rational, and the arithmetic of the program is
    read without rounding.  The transcendental functions of [Math], number
    formatting and text measurement are the host's: they are fields of a
    [Host] record that the embedded functions take as an argument.

    Rounding decides what the program does at the seam between 360 and 0
    degrees, so the angle functions of [geo.ts] and the heading smoothing of
    [sensors.ts] are embedded a second time, in the module [Binary64], over
    IEEE 754 binary64 numbers.  A statement below that depends on the
    absence of rounding says so. *)

From Stdlib Require Import QArith Qround Qminmax Qabs Lqa ZArith Lia Sorted.
From Stdlib Require Floats.
From stdpp Require Import gmap strings list fin_maps.

Open Scope Q_scope.

(** ** JavaScript number primitives *)

Module Js.

(** [a < b] and [a <= b] on numbers, as booleans. *)
Definition leb (a b : Q) : bool := Qle_bool a b.
Definition ltb (a b : Q) : bool := negb (Qle_bool b a).

(** Rounding toward zero, the quotient used by the [%] operator. *)
Definition trunc (q : Q) : Z :=
  if Qle_bool 0 q then Qfloor q else Qceiling q.

(** [x % y]: the remainder has the sign of the dividend. *)
Definition rem (x y : Q) : Q := x - y * inject_Z (trunc (x / y)).

(** [Math.round], [Math.ceil] and [Math.floor]. *)
Definition round (x : Q) : Q := inject_Z (Qfloor (x + (1 # 2))).
Definition ceil (x : Q) : Z := Qceiling x.
Definition floor (x : Q) : Z := Qfloor x.

(** [o ?? d] *)
Definition nullish {A} (o : option A) (d : A) : A :=
  match o with Some v => v | None => d end.

(** What the host provides: [Math]'s transcendental functions (a double in,
    a double out), [Number.prototype.toFixed] and [toString], and the
    canvas's [measureText(text).width]. *)
Record Host := {
  Math_PI : Q;
  Math_sin : Q -> Q;
  Math_cos : Q -> Q;
  Math_asin : Q -> Q;
  Math_atan2 : Q -> Q -> Q;
  Math_sqrt : Q -> Q;
  Math_hypot : Q -> Q -> Q;
  Math_exp : Q -> Q;
  toFixed : Q -> nat -> string;
  toString : Q -> string;
  measureText_width : string -> Q
}.

(** The contract of [Math.exp] on arguments that are not positive: its value
    lies in [0, 1]. *)
Definition exp_contracts (h : Host) : Prop :=
  forall f, 0 <= f -> 0 <= Math_exp h (- f) /\ Math_exp h (- f) <= 1.

End Js.

(** ** geo.ts *)

Module Geo.
Import Js.

Definition toRad (h : Host) (deg : Q) : Q := (deg * Math_PI h) / 180.
Definition toDeg (h : Host) (rad : Q) : Q := (rad * 180) / Math_PI h.

(** Read without rounding, [wrap360] never returns 360 and [wrap180] is
    exact; on binary64 numbers the additions round, which [Binary64] models. *)
Definition wrap360 (deg : Q) : Q :=
  let d := rem deg 360 in
  if ltb d 0 then d + 360 else d.

Definition wrap180 (deg : Q) : Q :=
  let d := rem (rem (deg + 180) 360 + 360) 360 - 180 in
  d.

Definition haversineDistanceKm (h : Host) (lat1 lon1 lat2 lon2 : Q) : Q :=
  let R := 6371.0088 in
  let dLat := toRad h (lat2 - lat1) in
  let dLon := toRad h (lon2 - lon1) in
  let a := Math_sin h (dLat / 2) ^ 2
           + Math_cos h (toRad h lat1) * Math_cos h (toRad h lat2)
             * Math_sin h (dLon / 2) ^ 2 in
  let c := 2 * Math_atan2 h (Math_sqrt h a) (Math_sqrt h (1 - a)) in
  R * c.

Definition initialBearingDeg (h : Host) (lat1 lon1 lat2 lon2 : Q) : Q :=
  let phi1 := toRad h lat1 in
  let phi2 := toRad h lat2 in
  let dLon := toRad h (lon2 - lon1) in
  let y := Math_sin h dLon * Math_cos h phi2 in
  let x := Math_cos h phi1 * Math_sin h phi2
           - Math_sin h phi1 * Math_cos h phi2 * Math_cos h dLon in
  let brng := toDeg h (Math_atan2 h y x) in
  wrap360 brng.

End Geo.

(** ** projection.ts *)

Module Projection.
Import Js.

(** Both projections divide by the field of view.  A division by 0 is 0 in
    [Q] and NaN or an infinity in JavaScript: what is stated about them
    assumes a field of view that is not 0. *)
Definition azimuthToScreenX (deltaAzDeg hfovDeg width : Q) : Q :=
  let halfWidth := width / 2 in
  let x := (deltaAzDeg / hfovDeg) * halfWidth + halfWidth in
  Qmax 0 (Qmin width x).

Definition pitchToScreenY (pitchDeg vfovDeg height : Q) : Q :=
  let halfHeight := height / 2 in
  let y := (- pitchDeg / vfovDeg) * halfHeight + halfHeight in
  Qmax 0 (Qmin height y).

Definition estimateVfovDeg (hfovDeg width height : Q) : Q :=
  hfovDeg * (height / Qmax 1 width).

Definition isWithinFov (deltaAzDeg hfovDeg : Q) : bool :=
  let half := hfovDeg / 2 in
  leb (- half) deltaAzDeg && leb deltaAzDeg half.

Inductive Side := Left | Right.

Definition edgeSide (deltaAzDeg : Q) : Side :=
  if ltb deltaAzDeg 0 then Left else Right.

End Projection.

(** ** sensors.ts: the orientation engine *)

Module Sensors.
Import Js Geo.

(** Exponential smoothing with circular handling for the heading. *)
Definition smoothAngle (h : Host) (prev next factor : Q) : Q :=
  let delta := wrap180 (next - prev) in
  wrap360 (prev + delta * (1 - Math_exp h (- factor))).

Definition smoothLinear (h : Host) (prev next factor : Q) : Q :=
  prev + (next - prev) * (1 - Math_exp h (- factor)).

Inductive OrientationSource :=
  | generic_sensor
  | deviceorientation_motion
  | deviceorientation
  | virtual.

Record OrientationSample := {
  headingDeg : Q;
  pitchDeg : Q;
  rollDeg : Q;
  source : OrientationSource;
  timestamp : Q
}.

Record OrientationOptions := {
  opt_smoothing : Q;
  opt_headingOffsetDeg : Q
}.

(** Quaternion to ZYX Euler angles in degrees: (yaw, pitch, roll). *)
Definition quatToEuler (h : Host) (qx qy qz qw : Q) : Q * Q * Q :=
  let ysqr := qy * qy in
  let t0 := 2 * (qw * qx + qy * qz) in
  let t1 := 1 - 2 * (qx * qx + ysqr) in
  let roll := Math_atan2 h t0 t1 in
  let t2 := 2 * (qw * qy - qz * qx) in
  let t2 := Qmax (-1) (Qmin 1 t2) in
  let pitch := Math_asin h t2 in
  let t3 := 2 * (qw * qz + qx * qy) in
  let t4 := 1 - 2 * (ysqr + qz * qz) in
  let yaw := Math_atan2 h t3 t4 in
  ((yaw * 180) / Math_PI h, (pitch * 180) / Math_PI h, (roll * 180) / Math_PI h).

(** The locals of [startVirtual]: they exist once the pointer listeners are
    registered. *)
Record Drag := {
  dragging : bool;
  lastX : Q;
  lastY : Q
}.

(** The closure state of [startOrientation].  [genericSensor], [fusionOn],
    [timeout], [virt] and [rafOn] record which callbacks are registered with
    the host: the sensor's [onreading], the [deviceorientation] and
    [devicemotion] listeners, the pending [setTimeout] with its delay in
    milliseconds, the pointer listeners with their locals, and the animation
    frame request.  [delivered] is the stream a subscriber receives. *)
Record Engine := {
  smoothing : Q;
  headingOffsetDeg : Q;
  src : OrientationSource;
  yaw : Q;
  pitch : Q;
  roll : Q;
  lastGyroTs : Q;
  lastEmit : OrientationSample;
  headingMeas : option Q;
  genericSensor : bool;
  fusionOn : bool;
  timeout : option Q;
  virt : option Drag;
  rafOn : bool;
  delivered : list OrientationSample
}.

Definition set_smoothing (v : Q) (e : Engine) : Engine :=
  {| smoothing := v; headingOffsetDeg := headingOffsetDeg e; src := src e;
     yaw := yaw e; pitch := pitch e; roll := roll e; lastGyroTs := lastGyroTs e;
     lastEmit := lastEmit e; headingMeas := headingMeas e;
     genericSensor := genericSensor e; fusionOn := fusionOn e;
     timeout := timeout e; virt := virt e; rafOn := rafOn e;
     delivered := delivered e |}.

Definition set_headingOffsetDeg (v : Q) (e : Engine) : Engine :=
  {| smoothing := smoothing e; headingOffsetDeg := v; src := src e;
     yaw := yaw e; pitch := pitch e; roll := roll e; lastGyroTs := lastGyroTs e;
     lastEmit := lastEmit e; headingMeas := headingMeas e;
     genericSensor := genericSensor e; fusionOn := fusionOn e;
     timeout := timeout e; virt := virt e; rafOn := rafOn e;
     delivered := delivered e |}.

Definition set_src (v : OrientationSource) (e : Engine) : Engine :=
  {| smoothing := smoothing e; headingOffsetDeg := headingOffsetDeg e; src := v;
     yaw := yaw e; pitch := pitch e; roll := roll e; lastGyroTs := lastGyroTs e;
     lastEmit := lastEmit e; headingMeas := headingMeas e;
     genericSensor := genericSensor e; fusionOn := fusionOn e;
     timeout := timeout e; virt := virt e; rafOn := rafOn e;
     delivered := delivered e |}.

(** Assign the three filter accumulators. *)
Definition set_attitude (y p r : Q) (e : Engine) : Engine :=
  {| smoothing := smoothing e; headingOffsetDeg := headingOffsetDeg e; src := src e;
     yaw := y; pitch := p; roll := r; lastGyroTs := lastGyroTs e;
     lastEmit := lastEmit e; headingMeas := headingMeas e;
     genericSensor := genericSensor e; fusionOn := fusionOn e;
     timeout := timeout e; virt := virt e; rafOn := rafOn e;
     delivered := delivered e |}.

Definition set_lastGyroTs (v : Q) (e : Engine) : Engine :=
  {| smoothing := smoothing e; headingOffsetDeg := headingOffsetDeg e; src := src e;
     yaw := yaw e; pitch := pitch e; roll := roll e; lastGyroTs := v;
     lastEmit := lastEmit e; headingMeas := headingMeas e;
     genericSensor := genericSensor e; fusionOn := fusionOn e;
     timeout := timeout e; virt := virt e; rafOn := rafOn e;
     delivered := delivered e |}.

Definition set_headingMeas (v : option Q) (e : Engine) : Engine :=
  {| smoothing := smoothing e; headingOffsetDeg := headingOffsetDeg e; src := src e;
     yaw := yaw e; pitch := pitch e; roll := roll e; lastGyroTs := lastGyroTs e;
     lastEmit := lastEmit e; headingMeas := v;
     genericSensor := genericSensor e; fusionOn := fusionOn e;
     timeout := timeout e; virt := virt e; rafOn := rafOn e;
     delivered := delivered e |}.

(** [lastEmit = out; listeners.forEach((fn) => fn(out))] *)
Definition publish (out : OrientationSample) (e : Engine) : Engine :=
  {| smoothing := smoothing e; headingOffsetDeg := headingOffsetDeg e; src := src e;
     yaw := yaw e; pitch := pitch e; roll := roll e; lastGyroTs := lastGyroTs e;
     lastEmit := out; headingMeas := headingMeas e;
     genericSensor := genericSensor e; fusionOn := fusionOn e;
     timeout := timeout e; virt := virt e; rafOn := rafOn e;
     delivered := delivered e ++ [out] |}.

(** The host registrations: sensor, device listeners, timer, pointer
    listeners, animation frame. *)
Definition set_hooks (g f : bool) (t : option Q) (v : option Drag) (r : bool)
    (e : Engine) : Engine :=
  {| smoothing := smoothing e; headingOffsetDeg := headingOffsetDeg e; src := src e;
     yaw := yaw e; pitch := pitch e; roll := roll e; lastGyroTs := lastGyroTs e;
     lastEmit := lastEmit e; headingMeas := headingMeas e;
     genericSensor := g; fusionOn := f;
     timeout := t; virt := v; rafOn := r;
     delivered := delivered e |}.

Definition set_virt (v : option Drag) (e : Engine) : Engine :=
  set_hooks (genericSensor e) (fusionOn e) (timeout e) v (rafOn e) e.

Definition emit (h : Host) (now : Q) (e : Engine) : Engine :=
  let targetHeading := wrap360 (yaw e + headingOffsetDeg e) in
  let targetPitch := pitch e in
  let targetRoll := roll e in
  let smoothedHeading :=
    smoothAngle h (headingDeg (lastEmit e)) targetHeading (smoothing e) in
  let smoothedPitch :=
    smoothLinear h (pitchDeg (lastEmit e)) targetPitch (smoothing e) in
  let smoothedRoll :=
    smoothLinear h (rollDeg (lastEmit e)) targetRoll (smoothing e) in
  let out := {| headingDeg := smoothedHeading;
                pitchDeg := smoothedPitch;
                rollDeg := smoothedRoll;
                source := src e;
                timestamp := now |} in
  publish out e.

(** How the attempt to build a generic sensor ends: neither constructor
    exists, [new SensorCtor] throws, [s.start()] throws after the sensor and
    its handler were stored, or the sensor starts. *)
Inductive SensorProbe :=
  | CtorMissing
  | CtorThrows
  | StartThrows
  | SensorStarted.

Definition startGenericSensor (probe : SensorProbe) (e : Engine) : bool * Engine :=
  match probe with
  | CtorMissing => (false, e)
  | CtorThrows => (false, e)
  | StartThrows =>
      (false, set_hooks true (fusionOn e) (timeout e) (virt e) (rafOn e)
                (set_src generic_sensor e))
  | SensorStarted =>
      (true, set_hooks true (fusionOn e) (timeout e) (virt e) (rafOn e)
               (set_src generic_sensor e))
  end.

(** [s.onreading]; [q] is [s.quaternion]. *)
Definition onreading (h : Host) (now : Q) (q : option (Q * Q * Q * Q)) (e : Engine) : Engine :=
  match q with
  | None => e
  | Some (q0, q1, q2, q3) =>
      let '(z, y, x) := quatToEuler h q0 q1 q2 q3 in
      emit h now (set_attitude (wrap360 z) y x e)
  end.

Definition startDeviceFusion (e : Engine) : Engine :=
  set_hooks (genericSensor e) true (timeout e) (virt e) (rafOn e)
    (set_src deviceorientation_motion e).

(** [onDO]: the two arguments are [webkitCompassHeading] and [alpha] when
    they are numbers. *)
Definition onDO (webkitCompassHeading alpha : option Q) (e : Engine) : Engine :=
  match webkitCompassHeading with
  | Some c => set_headingMeas (Some (wrap360 c)) e
  | None =>
      match alpha with
      | Some a => set_headingMeas (Some (wrap360 a)) e
      | None => e
      end
  end.

Definition accelGain : Q := 0.02.
Definition yawCorrectionGain : Q := 0.01.

(** [onDM]: [rr] is [e.rotationRate] with its [alpha], [beta], [gamma];
    [ag] is [e.accelerationIncludingGravity] with its [x], [y], [z]. *)
Definition onDM (h : Host) (now : Q)
    (rr : option (option Q * option Q * option Q))
    (ag : option (option Q * option Q * option Q)) (e : Engine) : Engine :=
  let dt := if Qeq_bool (lastGyroTs e) 0 then 0 else (now - lastGyroTs e) / 1000 in
  let '(y1, p1, r1) :=
    match rr with
    | Some (ra, rb, rg) =>
        let gz := nullish ra 0 in
        let gx := nullish rb 0 in
        let gy := nullish rg 0 in
        (wrap360 (yaw e + gz * dt), pitch e + gx * dt, roll e + gy * dt)
    | None => (yaw e, pitch e, roll e)
    end in
  let '(p2, r2) :=
    match ag with
    | Some (gx, gy, gz) =>
        let ax := nullish gx 0 in
        let ay := nullish gy 0 in
        let az := nullish gz (-9.8) in
        let pitchAcc := (Math_atan2 h (- ax) (Math_hypot h ay az) * 180) / Math_PI h in
        let rollAcc := (Math_atan2 h ay az * 180) / Math_PI h in
        (p1 * (1 - accelGain) + pitchAcc * accelGain,
         r1 * (1 - accelGain) + rollAcc * accelGain)
    | None => (p1, r1)
    end in
  let y3 :=
    match headingMeas e with
    | Some m =>
        let err := wrap180 (m - y1) in
        wrap360 (y1 + err * yawCorrectionGain)
    | None => y1
    end in
  emit h now (set_attitude y3 p2 r2 (set_lastGyroTs now e)).

Definition sensitivityHeading : Q := 0.1.
Definition sensitivityPitch : Q := 0.1.

Definition startVirtual (e : Engine) : Engine :=
  set_virt (Some {| dragging := false; lastX := 0; lastY := 0 |})
    (set_src virtual e).

Definition onDown (clientX clientY : Q) (d : Drag) : Drag :=
  {| dragging := true; lastX := clientX; lastY := clientY |}.

Definition onUp (d : Drag) : Drag :=
  {| dragging := false; lastX := lastX d; lastY := lastY d |}.

Definition onMove (h : Host) (now clientX clientY : Q) (d : Drag) (e : Engine) : Engine :=
  if dragging d then
    let dx := clientX - lastX d in
    let dy := clientY - lastY d in
    let d' := {| dragging := dragging d; lastX := clientX; lastY := clientY |} in
    let yaw' := wrap360 (yaw e + dx * sensitivityHeading) in
    let pitch' := Qmax (-89) (Qmin 89 (pitch e - dy * sensitivityPitch)) in
    emit h now (set_attitude yaw' pitch' (roll e) (set_virt (Some d') e))
  else e.

(** The callback given to [setTimeout]. *)
Definition onTimeout (e : Engine) : Engine :=
  if Qeq_bool (lastGyroTs e) 0
     && match headingMeas e with None => true | Some _ => false end
  then startVirtual e else e.

Definition graceMs : Q := 2000.

(** [startOrientation(options)]; [now] is [performance.now()] at the call. *)
Definition startOrientation (probe : SensorProbe) (now : Q)
    (options : OrientationOptions) : Engine :=
  let e0 :=
    {| smoothing := opt_smoothing options;
       headingOffsetDeg := opt_headingOffsetDeg options;
       src := deviceorientation_motion;
       yaw := 0; pitch := 0; roll := 0; lastGyroTs := 0;
       lastEmit := {| headingDeg := 0; pitchDeg := 0; rollDeg := 0;
                      source := deviceorientation; timestamp := now |};
       headingMeas := None;
       genericSensor := false; fusionOn := false; timeout := None;
       virt := None; rafOn := false; delivered := [] |} in
  let '(startedGeneric, e1) := startGenericSensor probe e0 in
  let e2 :=
    if startedGeneric then e1
    else
      let e := startDeviceFusion e1 in
      set_hooks (genericSensor e) (fusionOn e) (Some graceMs) (virt e) (rafOn e) e in
  set_hooks (genericSensor e2) (fusionOn e2) (timeout e2) (virt e2) true e2.

(** The methods of the returned stream. *)
Definition setSmoothing (v : Q) (e : Engine) : Engine :=
  set_smoothing (Qmax 0 (Qmin 0.3 v)) e.

Definition setHeadingOffset (deg : Q) (e : Engine) : Engine :=
  set_headingOffsetDeg deg e.

Definition getSource (e : Engine) : OrientationSource := src e.

(** [stop()]: every registration is withdrawn. *)
Definition stop (e : Engine) : Engine :=
  set_hooks false false None None false e.

(** What the host can deliver to the engine.  A callback runs only while it
    is registered. *)
Inductive Event :=
  | Reading (now : Q) (quaternion : option (Q * Q * Q * Q))
  | DeviceOrientation (webkitCompassHeading alpha : option Q)
  | DeviceMotion (now : Q)
      (rotationRate accelerationIncludingGravity : option (option Q * option Q * option Q))
  | TimerFired
  | PointerDown (clientX clientY : Q)
  | PointerUp
  | PointerMove (now clientX clientY : Q)
  | AnimationFrame (now : Q).

Definition dispatch (h : Host) (e : Engine) (ev : Event) : Engine :=
  match ev with
  | Reading now q => if genericSensor e then onreading h now q e else e
  | DeviceOrientation c a => if fusionOn e then onDO c a e else e
  | DeviceMotion now rr ag => if fusionOn e then onDM h now rr ag e else e
  | TimerFired =>
      match timeout e with
      | Some _ =>
          onTimeout (set_hooks (genericSensor e) (fusionOn e) None (virt e) (rafOn e) e)
      | None => e
      end
  | PointerDown x y =>
      match virt e with
      | Some d => set_virt (Some (onDown x y d)) e
      | None => e
      end
  | PointerUp =>
      match virt e with
      | Some d => set_virt (Some (onUp d)) e
      | None => e
      end
  | PointerMove now x y =>
      match virt e with
      | Some d => onMove h now x y d e
      | None => e
      end
  | AnimationFrame now => if rafOn e then emit h now e else e
  end.

(** The engine after a sequence of host events. *)
Definition run (h : Host) (e : Engine) (evs : list Event) : Engine :=
  foldl (dispatch h) e evs.



End Sensors.

(** ** renderer.ts: label layout and the fade tracker *)

Module Renderer.
Import Js Geo Projection.

Inductive Units := km | mi.

Definition units_text (u : Units) : string :=
  match u with km => "km" | mi => "mi" end.

Record LatLon := { ll_lat : Q; ll_lon : Q }.

Record City := {
  name : string;
  country : string;
  lat : Q;
  lon : Q;
  population : Q
}.

Record RendererInput := {
  width : Q;
  height : Q;
  hfovDeg : Q;
  pitchDeg : Q;
  headingDeg : Q;
  units : Units;
  maxDistanceKm : Q;
  user : LatLon;
  cities : list City;
  showOffscreenIndicators : bool
}.

Record Rect := { x : Q; y : Q; w : Q; h : Q }.

Definition keyOf (c : City) : string := name c +:+ "|" +:+ country c.

(** *** The fade tracker *)

Definition fadeInPerSec : Q := 4.
Definition fadeOutPerSec : Q := 3.

(** One turn of the loop of [updateAlpha], for the key [k]. *)
Definition updateKey (targetVisible : gset string) (dt : Q) (k : string)
    (labelAlpha : gmap string Q) : gmap string Q :=
  let cur := nullish (labelAlpha !! k) 0 in
  let vis := bool_decide (k ∈ targetVisible) in
  let next := if vis then Qmin 1 (cur + fadeInPerSec * dt)
              else Qmax 0 (cur - fadeOutPerSec * dt) in
  if leb next 0 && negb vis then delete k labelAlpha else <[k := next]> labelAlpha.

Definition updateAlpha (targetVisible : gset string) (dt : Q)
    (labelAlpha : gmap string Q) : gmap string Q :=
  let keys := dom labelAlpha ∪ targetVisible in
  foldr (updateKey targetVisible dt) labelAlpha (elements keys).

(** *** Measuring and placing *)

Definition measureLabel (host : Host) (text : string) : Q * Q :=
  let fixedLineHeight := 24 in
  let w := measureText_width host text + 12 in
  (w, fixedLineHeight).

Definition rectsOverlap (a b : Rect) : bool :=
  negb (ltb (x a + w a) (x b) || ltb (x b + w b) (x a)
        || ltb (y a + h a) (y b) || ltb (y b + h b) (y a)).

(** The offsets [1 .. maxSteps] of the two [for] loops. *)
Definition stepsUpTo (maxSteps : Z) : list Q :=
  map (fun i => inject_Z (Z.of_nat i)) (seq 1 (Z.to_nat maxSteps)).

(** The loop over the candidate positions, with the set [tried]. *)
Fixpoint searchY (rect : Rect) (placed : list Rect) (height : Q)
    (candidates tried : list Q) : option Q :=
  match candidates with
  | [] => None
  | y0 :: rest =>
      let y1 := Qmax 0 (Qmin (height - h rect) y0) in
      if existsb (Qeq_bool y1) tried then searchY rect placed height rest tried
      else
        let test := {| x := x rect; y := y1; w := w rect; h := h rect |} in
        if negb (existsb (fun p => rectsOverlap p test) placed) then Some y1
        else searchY rect placed height rest (y1 :: tried)
  end.

Definition findNonOverlappingY (rect : Rect) (placed : list Rect) (height : Q)
    (maxSteps : Z) : option Q :=
  let step := Qmax 12 (h rect + 6) in
  let baseY := y rect in
  let candidates :=
    [baseY] ++ map (fun i => baseY - i * step) (stepsUpTo maxSteps)
            ++ map (fun i => baseY + i * step) (stepsUpTo maxSteps) in
  searchY rect placed height candidates [].

(** *** One frame *)

Record Candidate := { c : City; distKm : Q; bearing : Q }.

(** [candidates.sort((a, b) => b.c.population - a.c.population)]: a stable
    sort, larger populations first. *)
Fixpoint insertByPopulation (a : Candidate) (l : list Candidate) : list Candidate :=
  match l with
  | [] => [a]
  | b :: rest =>
      if ltb (population (c a)) (population (c b))
      then b :: insertByPopulation a rest
      else a :: b :: rest
  end.

Definition sortByPopulation (l : list Candidate) : list Candidate :=
  foldr insertByPopulation [] l.

(** The record the [map] of [render] builds for a city. *)
Definition candidateOf (host : Host) (input : RendererInput) (c0 : City) : Candidate :=
  {| c := c0;
     distKm := haversineDistanceKm host (ll_lat (user input)) (ll_lon (user input))
                 (lat c0) (lon c0);
     bearing := initialBearingDeg host (ll_lat (user input)) (ll_lon (user input))
                  (lat c0) (lon c0) |}.

Definition buildCandidates (host : Host) (input : RendererInput) : list Candidate :=
  let mapped := map (candidateOf host input) (cities input) in
  sortByPopulation (filter (fun x => leb (distKm x) (maxDistanceKm input) = true) mapped).

Definition kmToMi : Q := 0.621371.

Definition composeText (host : Host) (u : Units) (item : Candidate) : string :=
  let dist := match u with km => distKm item | mi => distKm item * kmToMi end in
  let distStr := if leb 100 dist then toString host (round dist) else toFixed host dist 1 in
  let pop := population (c item) in
  let popStr :=
    if leb 1000000 pop then "~" +:+ toFixed host (pop / 1000000) 1 +:+ "M"
    else "~" +:+ toString host (round (pop / 1000)) +:+ "k" in
  name (c item) +:+ ", " +:+ country (c item) +:+ " — " +:+ distStr +:+ " "
    +:+ units_text u +:+ " — Pop " +:+ popStr.

(** What is drawn: a label card with its text, or an edge chevron with its
    text, at the given opacity. *)
Inductive Draw :=
  | DrawLabel (text : string) (r : Rect) (alpha : Q)
  | DrawEdge (side : Side) (text : string) (r : Rect) (alpha : Q).

(** The variables the loop of [render] updates. *)
Record Layout := {
  placed : list Rect;
  edgeLeftPlaced : list Rect;
  edgeRightPlaced : list Rect;
  visibleKeys : gset string;
  draws : list Draw
}.

Definition emptyLayout : Layout :=
  {| placed := []; edgeLeftPlaced := []; edgeRightPlaced := [];
     visibleKeys := ∅; draws := [] |}.

Definition maxLabelHeight : Q := 24.

(** The rectangle the loop body first builds for [item]. *)
Definition desiredRect (host : Host) (input : RendererInput) (horizonY : Q)
    (item : Candidate) : Rect :=
  let deltaAz := wrap180 (bearing item - headingDeg input) in
  let '(w0, h0) := measureLabel host (composeText host (units input) item) in
  let x0 := azimuthToScreenX deltaAz (hfovDeg input) (width input) in
  let yBase := Qmax 0 (Qmin (height input - maxLabelHeight) (horizonY - 6)) in
  {| x := Qmax 4 (Qmin (width input - w0 - 4) (x0 - w0 / 2));
     y := yBase - h0; w := w0; h := h0 |}.

(** The rectangle of an edge indicator before the vertical search. *)
Definition edgeRectOf (input : RendererInput) (horizonY : Q) (side : Side)
    (w0 h0 : Q) : Rect :=
  let margin := 6 in
  match side with
  | Left =>
      {| x := margin; y := Qmax 0 (Qmin (height input - h0) (horizonY - h0 / 2));
         w := w0; h := h0 |}
  | Right =>
      {| x := width input - margin - w0;
         y := Qmax 0 (Qmin (height input - h0) (horizonY - h0 / 2));
         w := w0; h := h0 |}
  end.

Definition withY (r : Rect) (y0 : Q) : Rect :=
  {| x := x r; y := y0; w := w r; h := h r |}.

Definition isOffscreen (input : RendererInput) (item : Candidate) : bool :=
  negb (isWithinFov (wrap180 (bearing item - headingDeg input)) (hfovDeg input)).

(** The body of the loop [for (const item of candidates)]. *)
Definition renderItem (host : Host) (input : RendererInput) (horizonY : Q)
    (labelAlpha : gmap string Q) (st : Layout) (item : Candidate) : Layout :=
  let key := keyOf (c item) in
  let deltaAz := wrap180 (bearing item - headingDeg input) in
  let offscreen := negb (isWithinFov deltaAz (hfovDeg input)) in
  let text := composeText host (units input) item in
  let '(w0, h0) := measureLabel host text in
  let rect := desiredRect host input horizonY item in
  if negb offscreen then
    let maxSteps := (ceil (height input / (h rect + 6)) + 2)%Z in
    match findNonOverlappingY rect (placed st) (height input) maxSteps with
    | None => st
    | Some yPlaced =>
        let rect' := withY rect yPlaced in
        let alpha := nullish (labelAlpha !! key) 0 in
        {| placed := placed st ++ [rect'];
           edgeLeftPlaced := edgeLeftPlaced st;
           edgeRightPlaced := edgeRightPlaced st;
           visibleKeys := visibleKeys st ∪ {[ key ]};
           draws := if leb alpha 0.01 then draws st
                    else draws st ++ [DrawLabel text rect' alpha] |}
    end
  else
    let st1 :=
      {| placed := placed st;
         edgeLeftPlaced := edgeLeftPlaced st;
         edgeRightPlaced := edgeRightPlaced st;
         visibleKeys := visibleKeys st ∪ {[ key ]};
         draws := draws st |} in
    if negb (showOffscreenIndicators input) then st1
    else
      let alpha := nullish (labelAlpha !! key) 0 in
      if leb alpha 0.01 then st1
      else
        let side := edgeSide deltaAz in
        let edgeRect := edgeRectOf input horizonY side w0 h0 in
        let used := match side with
                    | Left => edgeLeftPlaced st1
                    | Right => edgeRightPlaced st1
                    end in
        let maxStepsEdge := (ceil (height input / (h edgeRect + 6)) + 2)%Z in
        match findNonOverlappingY edgeRect used (height input) maxStepsEdge with
        | None => st1
        | Some yPlaced =>
            let edgeRect' := withY edgeRect yPlaced in
            {| placed := placed st1;
               edgeLeftPlaced := match side with
                                 | Left => edgeLeftPlaced st1 ++ [edgeRect']
                                 | Right => edgeLeftPlaced st1
                                 end;
               edgeRightPlaced := match side with
                                  | Left => edgeRightPlaced st1
                                  | Right => edgeRightPlaced st1 ++ [edgeRect']
                                  end;
               visibleKeys := visibleKeys st1;
               draws := draws st1 ++ [DrawEdge side text edgeRect' alpha] |}
        end.

Definition horizonOf (input : RendererInput) : Q :=
  let vfovDeg := estimateVfovDeg (hfovDeg input) (width input) (height input) in
  pitchToScreenY (pitchDeg input) vfovDeg (height input).

(** The loop of [render] over a list of candidates, from a given layout. *)
Definition layoutFrom (host : Host) (input : RendererInput)
    (labelAlpha : gmap string Q) (st : Layout) (items : list Candidate) : Layout :=
  foldl (renderItem host input (horizonOf input) labelAlpha) st items.

(** The layout of one frame. *)
Definition layoutFrame (host : Host) (input : RendererInput)
    (labelAlpha : gmap string Q) : Layout :=
  layoutFrom host input labelAlpha emptyLayout (buildCandidates host input).

(** The state that lives across frames: the module's [labelAlpha] and the
    caller's [lastNowRef.v]. *)
Record FrameState := {
  labelAlpha : gmap string Q;
  lastNow : Q
}.

Record RenderResult := { visibleCount : nat }.

Definition frameDt (now lastNowV : Q) : Q :=
  if Qeq_bool lastNowV 0 then 0 else Qmin 0.1 ((now - lastNowV) / 1000).

(** [render(ctx, input, now, lastNowRef)]: the result, the drawing
    instructions issued, and the state after the frame. *)
Definition render (host : Host) (input : RendererInput) (now : Q) (fs : FrameState)
    : RenderResult * list Draw * FrameState :=
  let dt := frameDt now (lastNow fs) in
  let st := layoutFrame host input (labelAlpha fs) in
  ({| visibleCount := length (placed st) |},
   draws st,
   {| labelAlpha := updateAlpha (visibleKeys st) dt (labelAlpha fs);
      lastNow := now |}).

(** *** Vocabulary of the properties *)

(** What [updateAlpha] makes of the alpha [cur] of one key. *)
Definition faded (vis : bool) (dt cur : Q) : Q :=
  if vis then Qmin 1 (cur + 4 * dt) else Qmax 0 (cur - 3 * dt).

(** The slot the on-screen case of the loop body looks for, given the
    on-screen pool. *)
Definition labelSlot (host : Host) (input : RendererInput) (pool : list Rect)
    (item : Candidate) : option Q :=
  let rect := desiredRect host input (horizonOf input) item in
  findNonOverlappingY rect pool (height input)
    (ceil (height input / (h rect + 6)) + 2)%Z.

(** The edge rectangle of [item] on [side], and the slot the off-screen
    case looks for in that side's pool. *)
Definition edgeRectFor (host : Host) (input : RendererInput) (side : Side)
    (item : Candidate) : Rect :=
  let '(w0, h0) := measureLabel host (composeText host (units input) item) in
  edgeRectOf input (horizonOf input) side w0 h0.

Definition edgeSlot (host : Host) (input : RendererInput) (side : Side)
    (pool : list Rect) (item : Candidate) : option Q :=
  let edgeRect := edgeRectFor host input side item in
  findNonOverlappingY edgeRect pool (height input)
    (ceil (height input / (h edgeRect + 6)) + 2)%Z.

Definition sideOf (input : RendererInput) (item : Candidate) : Side :=
  edgeSide (wrap180 (bearing item - headingDeg input)).

(** [labelAlpha.get(k) ?? 0], the alpha the renderer reads for a key. *)
Definition alphaOf (m : gmap string Q) (k : string) : Q := nullish (m !! k) 0.

(** Every stored alpha lies in [0, 1]. *)
Definition unit_alphas (m : gmap string Q) : Prop :=
  forall k a, m !! k = Some a -> 0 <= a /\ a <= 1.


(** A rectangle lies within the viewport of [input]. *)
Definition inViewport (input : RendererInput) (r : Rect) : Prop :=
  0 <= x r /\ x r + w r <= width input /\ 0 <= y r /\ y r + h r <= height input.

(** The padded width of the label of [item]. *)
Definition labelWidth (host : Host) (input : RendererInput) (item : Candidate) : Q :=
  fst (measureLabel host (composeText host (units input) item)).

(** [input] with the setting [showOffscreenIndicators] replaced. *)
Definition withIndicators (b : bool) (input : RendererInput) : RendererInput :=
  {| width := width input; height := height input; hfovDeg := hfovDeg input;
     pitchDeg := pitchDeg input; headingDeg := headingDeg input;
     units := units input; maxDistanceKm := maxDistanceKm input;
     user := user input; cities := cities input;
     showOffscreenIndicators := b |}.

Definition isEdgeDraw (d : Draw) : bool :=
  match d with DrawEdge _ _ _ _ => true | DrawLabel _ _ _ => false end.


(** Every rectangle of the three pools lies within the viewport. *)
Definition poolsInViewport (input : RendererInput) (st : Layout) : Prop :=
  forall r, In r (placed st) \/ In r (edgeLeftPlaced st) \/ In r (edgeRightPlaced st) ->
    inViewport input r.


(** What one turn of the loop of [render] does to the layout. *)
Inductive Outcome (host : Host) (input : RendererInput) (la : gmap string Q)
    (st : Layout) (item : Candidate) (st' : Layout) : Prop :=
  | outDropped :
      isOffscreen input item = false ->
      labelSlot host input (placed st) item = None ->
      st' = st ->
      Outcome host input la st item st'
  | outPlaced (y0 : Q) :
      isOffscreen input item = false ->
      labelSlot host input (placed st) item = Some y0 ->
      placed st' = placed st ++ [withY (desiredRect host input (horizonOf input) item) y0] ->
      edgeLeftPlaced st' = edgeLeftPlaced st ->
      edgeRightPlaced st' = edgeRightPlaced st ->
      visibleKeys st' = visibleKeys st ∪ {[ keyOf (c item) ]} ->
      (forall d, In d (draws st') -> In d (draws st) \/ isEdgeDraw d = false) ->
      Outcome host input la st item st'
  | outHidden :
      isOffscreen input item = true ->
      placed st' = placed st ->
      edgeLeftPlaced st' = edgeLeftPlaced st ->
      edgeRightPlaced st' = edgeRightPlaced st ->
      visibleKeys st' = visibleKeys st ∪ {[ keyOf (c item) ]} ->
      draws st' = draws st ->
      Outcome host input la st item st'
  | outEdgeLeft (y0 : Q) :
      isOffscreen input item = true ->
      showOffscreenIndicators input = true ->
      edgeSlot host input Left (edgeLeftPlaced st) item = Some y0 ->
      placed st' = placed st ->
      edgeLeftPlaced st' = edgeLeftPlaced st ++ [withY (edgeRectFor host input Left item) y0] ->
      edgeRightPlaced st' = edgeRightPlaced st ->
      visibleKeys st' = visibleKeys st ∪ {[ keyOf (c item) ]} ->
      Outcome host input la st item st'
  | outEdgeRight (y0 : Q) :
      isOffscreen input item = true ->
      showOffscreenIndicators input = true ->
      edgeSlot host input Right (edgeRightPlaced st) item = Some y0 ->
      placed st' = placed st ->
      edgeLeftPlaced st' = edgeLeftPlaced st ->
      edgeRightPlaced st' = edgeRightPlaced st ++ [withY (edgeRectFor host input Right item) y0] ->
      visibleKeys st' = visibleKeys st ∪ {[ keyOf (c item) ]} ->
      Outcome host input la st item st'.


End Renderer.

(** ** A concrete host and concrete frames, for evaluation *)

Module Sample.
Import Js Geo Projection Sensors Renderer.

(** A rational stand-in for the host's mathematics.  On the frames below
    it yields what the real functions yield: the cities stand where the user
    stands, and the sine of 0 is 0, the cosine of 0 is 1, the square roots of
    0 and 1 are 0 and 1 and the arctangent of 0 is 0, which makes every
    distance 0 and every bearing 0.  [exp] of a non-positive [x] is
    [1 / (1 - x)], a value in (0, 1].  Every label is [textWidth] pixels
    wide. *)
Definition hostOf (textWidth : Q) : Host :=
  {| Math_PI := 355 # 113;
     Math_sin := fun a => a;
     Math_cos := fun _ => 1;
     Math_asin := fun a => a;
     Math_atan2 := fun b _ => b;
     Math_sqrt := fun a => a;
     Math_hypot := fun a b => Qabs a + Qabs b;
     Math_exp := fun a => 1 / (1 - a);
     toFixed := fun _ _ => "0.0";
     toString := fun _ => "0";
     measureText_width := fun _ => textWidth |}.

Definition host : Host := hostOf 100.

Definition cityAt (n : string) (longitude pop : Q) : City :=
  {| name := n; country := "X"; lat := 0; lon := longitude; population := pop |}.

Definition frameOf (vw vh heading : Q) (indicators : bool) (cs : list City)
    : RendererInput :=
  {| width := vw; height := vh; hfovDeg := 60; pitchDeg := 0;
     headingDeg := heading; units := km; maxDistanceKm := 1000;
     user := {| ll_lat := 0; ll_lon := 0 |}; cities := cs;
     showOffscreenIndicators := indicators |}.

(** Four cities on the same bearing, straight ahead, on a viewport 100
    pixels high: three labels fit above one another, the fourth finds no
    slot. *)
Definition crowded : RendererInput :=
  frameOf 400 100 0 true
    [cityAt "A" 0 4000000; cityAt "B" 0 3000000;
     cityAt "C" 0 2000000; cityAt "D" 0 1000000].

(** One city straight ahead on a viewport narrower than its label. *)
Definition narrow : RendererInput :=
  frameOf 100 200 0 true [cityAt "A" 0 4000000].

(** One city straight ahead on a viewport that leaves its label 6 pixels:
    the label is 112 pixels wide, the viewport 118. *)
Definition snug : RendererInput :=
  frameOf 118 200 0 true [cityAt "A" 0 4000000].

(** Two cities far to the left of the field of view, with the edge
    indicators switched off. *)
Definition sideways : RendererInput :=
  frameOf 400 300 80 false [cityAt "A" 0 4000000; cityAt "B" 0 3000000].

Definition options : OrientationOptions :=
  {| opt_smoothing := 0.15; opt_headingOffsetDeg := 0 |}.

End Sample.

(** ** Vocabulary for further properties of the engine *)

Module SensorsSpec.
Import Js Geo Sensors.

(** An angle in [0, 360].  [wrap360] aims below 360; the closed interval is
    what its result respects when its addition rounds as well. *)
Definition isHeading (a : Q) : Prop := 0 <= a /\ a <= 360.

(** Every heading the engine holds or has published is normalized. *)
Definition normalized (e : Engine) : Prop :=
  isHeading (yaw e)
  /\ isHeading (headingDeg (lastEmit e))
  /\ Forall (fun s => isHeading (headingDeg s)) (delivered e)
  /\ (forall m, headingMeas e = Some m -> isHeading m).

Definition isTimer (ev : Event) : bool :=
  match ev with TimerFired => true | _ => false end.

(** The generic sensor is running: nothing else can change the source. *)
Definition onGenericSensor (e : Engine) : Prop :=
  src e = generic_sensor /\ timeout e = None /\ virt e = None /\ fusionOn e = false.

(** A heading measurement has arrived on the device-fusion path. *)
Definition measured (e : Engine) : Prop :=
  (exists m, headingMeas e = Some m) /\ virt e = None
  /\ src e = deviceorientation_motion.

(** The device listeners are registered and the virtual source has not
    started. *)
Definition fusing (e : Engine) : Prop :=
  fusionOn e = true /\ virt e = None /\ src e = deviceorientation_motion.

End SensorsSpec.

(** ** Vocabulary for further properties of the renderer *)

Module RendererSpec.
Import Js Geo Projection Renderer.

(** Larger populations first. *)
Definition byPopulation (a b : Candidate) : Prop :=
  population (c b) <= population (c a).

(** The candidates whose population equals [p], in the order of the list. *)
Definition withPopulation (p : Q) (l : list Candidate) : list Candidate :=
  List.filter (fun a => Qeq_bool (population (c a)) p) l.

(** The number of rectangles of a layout, over its three pools. *)
Definition rectCount (st : Layout) : nat :=
  (length (placed st) + length (edgeLeftPlaced st) + length (edgeRightPlaced st))%nat.

Definition drawAlpha (d : Draw) : Q :=
  match d with DrawLabel _ _ a => a | DrawEdge _ _ _ a => a end.

(** The position the vertical search tries first. *)
Definition anchorY (rect : Rect) (height : Q) : Q :=
  Qmax 0 (Qmin (height - h rect) (y rect)).

(** The position the vertical search tries [i] steps away from the anchor. *)
Definition probeY (rect : Rect) (height : Q) (i : Z) : Q :=
  Qmax 0 (Qmin (height - h rect) (y rect + inject_Z i * Qmax 12 (h rect + 6))).

Definition overlapsPool (pool : list Rect) (r : Rect) : bool :=
  existsb (fun p => rectsOverlap p r) pool.

(** What [updateAlpha] leaves in the table for a key whose alpha was [cur]:
    an untargeted key that has faded to 0 is removed. *)
Definition storedAlpha (vis : bool) (dt cur : Q) : option Q :=
  if vis then Some (faded true dt cur)
  else if leb (faded false dt cur) 0 then None
       else Some (faded false dt cur).

(** [n] updates with the same target set and time step. *)
Definition updateTimes (n : nat) (T : gset string) (dt : Q) (m : gmap string Q)
    : gmap string Q :=
  Nat.iter n (updateAlpha T dt) m.

(** The times [t], then those of [l], never decrease. *)
Fixpoint nondecreasing (t : Q) (l : list Q) : Prop :=
  match l with
  | [] => True
  | t1 :: rest => t <= t1 /\ nondecreasing t1 rest
  end.

(** The state after rendering the frames of the list, each with its input
    and its time, one after the other. *)
Definition runFrames (host : Host) (fs : FrameState)
    (frames : list (RendererInput * Q)) : FrameState :=
  foldl (fun st f => snd (render host (fst f) (snd f) st)) fs frames.

End RendererSpec.

(** ** main.ts: the emission-rate meter *)

Module Main.
Import Js.

(** The variables of the subscription that measures the emission rate:
    [rateSamples], [frames], [lastEmitTs], and the average last handed to
    [updateDebug]. *)
Record RateMeter := {
  rateSamples : list Q;
  frames : Q;
  lastEmitTs : Q;
  shownRate : option Q
}.

(** The meter when the module is loaded at time [now]. *)
Definition initialMeter (now : Q) : RateMeter :=
  {| rateSamples := []; frames := 0; lastEmitTs := now; shownRate := None |}.

(** The subscriber, called with [performance.now()] for every sample. *)
Definition onSample (r : RateMeter) (now : Q) : RateMeter :=
  let frames1 := frames r + 1 in
  if ltb 1000 (now - lastEmitTs r) then
    let pushed := rateSamples r ++ [frames1] in
    let samples := if (4 <? length pushed)%nat then tail pushed else pushed in
    let avg := fold_left Qplus samples 0 / inject_Z (Z.of_nat (length samples)) in
    {| rateSamples := samples; frames := 0; lastEmitTs := now; shownRate := Some avg |}
  else
    {| rateSamples := rateSamples r; frames := frames1;
       lastEmitTs := lastEmitTs r; shownRate := shownRate r |}.

(** The meter keeps at most four counts, each at least one. *)
Definition meterOk (r : RateMeter) : Prop :=
  (length (rateSamples r) <= 4)%nat
  /\ Forall (fun s => 1 <= s) (rateSamples r)
  /\ 0 <= frames r
  /\ (forall avg, shownRate r = Some avg -> 1 <= avg).

End Main.

(** ** geo.ts and the heading smoothing on binary64 numbers *)

Module Binary64.
Import PrimFloat SpecFloat FloatOps.
#[local] Set Warnings "-inexact-float".
#[local] Open Scope float_scope.

(** A JavaScript number: an IEEE 754 binary64 value.  [+], [-], [*] and [<]
    are the operations of the format, rounding to nearest, ties to even. *)
Definition number : Set := float.

(** [x % y].  The remainder of the division truncated toward zero is a
    binary64 number, so the operator does not round: with [x] and [y] written
    as integers [X] and [Y] times the same power of two, it is [Z.rem X Y]
    times that power, with the sign of [x]; a zero result has the sign of [x];
    a zero or a finite [x] with an infinite [y] gives [x]; every other case
    is NaN. *)
Definition rem (x y : number) : number :=
  match Prim2SF x, Prim2SF y with
  | S754_finite sx mx ex, S754_finite _ my ey =>
      let e := Z.min ex ey in
      let X := (Zpos mx * 2 ^ (ex - e))%Z in
      let Y := (Zpos my * 2 ^ (ey - e))%Z in
      match Z.rem X Y with
      | Zpos r => SF2Prim (S754_finite sx r e)
      | _ => if sx then (-0) else 0
      end
  | S754_zero _, S754_finite _ _ _ => x
  | S754_zero _, S754_infinity _ => x
  | S754_finite _ _ _, S754_infinity _ => x
  | _, _ => nan
  end.

Definition wrap360 (deg : number) : number :=
  let d := rem deg 360 in
  if d <? 0 then d + 360 else d.

Definition wrap180 (deg : number) : number :=
  let d := rem (rem (deg + 180) 360 + 360) 360 - 180 in
  d.

(** [Math_exp] is the host's [Math.exp]. *)
Definition smoothAngle (Math_exp : number -> number) (prev next factor : number)
    : number :=
  let delta := wrap180 (next - prev) in
  wrap360 (prev + delta * (1 - Math_exp (- factor))).

(** The heading of the sample [emit] publishes, from the heading of the
    last sample and the closure's [yaw], [headingOffsetDeg] and [smoothing]. *)
Definition smoothedHeading (Math_exp : number -> number)
    (lastEmit_headingDeg yaw headingOffsetDeg smoothing : number) : number :=
  let targetHeading := wrap360 (yaw + headingOffsetDeg) in
  smoothAngle Math_exp lastEmit_headingDeg targetHeading smoothing.

Definition sensitivityHeading : number := 0.1.

(** The yaw [onMove] stores when the pointer has moved from [lastX] to
    [clientX] during a drag. *)
Definition onMove_yaw (yaw lastX clientX : number) : number :=
  let dx := clientX - lastX in
  wrap360 (yaw + dx * sensitivityHeading).

(** The yaw after a drag that starts at x = 0 and visits the positions of
    the list, one [pointermove] each. *)
Fixpoint dragThrough (yaw lastX : number) (xs : list number) : number :=
  match xs with
  | [] => yaw
  | clientX :: rest => dragThrough (onMove_yaw yaw lastX clientX) clientX rest
  end.

(** The value of [Math.exp(-0.15)]. *)
Definition exp_minus_0_15 : number := 0.8607079764250578.

End Binary64.

(** * Properties *)

(** ** Tactics for rational arithmetic *)

(** Case analysis on every [Qmax] and [Qmin] in sight. *)
Ltac qminmax_step a b spec op :=
  let m := fresh "m" in
  let H := fresh "Hm" in
  let E := fresh "Em" in
  destruct (spec a b) as [[H E]|[H E]];
  set (m := op a b) in *; clearbody m.

Ltac qminmax :=
  repeat match goal with
  | |- context [Qmax ?a ?b] => qminmax_step a b Q.max_spec Qmax
  | |- context [Qmin ?a ?b] => qminmax_step a b Q.min_spec Qmin
  | _ : context [Qmax ?a ?b] |- _ => qminmax_step a b Q.max_spec Qmax
  | _ : context [Qmin ?a ?b] |- _ => qminmax_step a b Q.min_spec Qmin
  end.

(** Decide a closed comparison of rationals by evaluation. *)
Ltac qeval :=
  vm_compute;
  first [ reflexivity | discriminate | intros; discriminate
        | let H := fresh in intro H; apply H; reflexivity ].

(** ** Facts about geo.ts *)

Module GeoFacts.
Import Js Geo.

Lemma trunc_comp (p q : Q) : p == q -> trunc p = trunc q.
Proof.
  intros E. unfold trunc. rewrite (Qleb_comp 0 0 (Qeq_refl 0) p q E).
  destruct (Qle_bool 0 q); [apply Qfloor_comp | apply Qceiling_comp]; exact E.
Qed.

Lemma trunc_nonneg (q : Q) :
  0 <= q -> inject_Z (trunc q) <= q /\ q < inject_Z (trunc q) + 1.
Proof.
  intros Hq. unfold trunc.
  destruct (Qle_bool 0 q) eqn:E.
  - split; [apply Qfloor_le|].
    pose proof (Qlt_floor q) as H. rewrite inject_Z_plus in H. exact H.
  - apply Qle_bool_iff in Hq. congruence.
Qed.

Lemma trunc_neg (q : Q) :
  q < 0 -> q <= inject_Z (trunc q) /\ inject_Z (trunc q) < q + 1.
Proof.
  intros Hq. unfold trunc.
  destruct (Qle_bool 0 q) eqn:E.
  - apply Qle_bool_iff in E. lra.
  - split; [apply Qle_ceiling|].
    pose proof (Qceiling_lt q) as H.
    unfold Z.sub in H. rewrite inject_Z_plus, inject_Z_opp in H.
    change (inject_Z 1) with 1 in H. lra.
Qed.

Lemma rem_cong (x : Q) : exists k : Z, rem x 360 == x + 360 * inject_Z k.
Proof.
  exists (- trunc (x / 360))%Z. unfold rem. rewrite inject_Z_opp. lra.
Qed.

Lemma rem_nonneg (x : Q) : 0 <= x -> 0 <= rem x 360 /\ rem x 360 < 360.
Proof.
  intros Hx. unfold rem.
  assert (Hq : 0 <= x / 360) by (unfold Qdiv; change (/ 360) with (1 # 360); lra).
  destruct (trunc_nonneg _ Hq) as [L U].
  revert L U. generalize (inject_Z (trunc (x / 360))). intros t L U.
  unfold Qdiv in L, U. change (/ 360) with (1 # 360) in L, U.
  split; lra.
Qed.

Lemma rem_neg (x : Q) : x < 0 -> -360 < rem x 360 /\ rem x 360 <= 0.
Proof.
  intros Hx. unfold rem.
  assert (Hq : x / 360 < 0) by (unfold Qdiv; change (/ 360) with (1 # 360); lra).
  destruct (trunc_neg _ Hq) as [L U].
  revert L U. generalize (inject_Z (trunc (x / 360))). intros t L U.
  unfold Qdiv in L, U. change (/ 360) with (1 # 360) in L, U.
  split; lra.
Qed.

Lemma wrap360_range (x : Q) : 0 <= wrap360 x /\ wrap360 x < 360.
Proof.
  unfold wrap360, ltb. cbv zeta.
  destruct (Qle_bool 0 (rem x 360)) eqn:E; simpl.
  - apply Qle_bool_iff in E.
    destruct (Qlt_le_dec x 0) as [Hx|Hx].
    + destruct (rem_neg x Hx). split; lra.
    + destruct (rem_nonneg x Hx). split; lra.
  - assert (Hr : rem x 360 < 0).
    { apply Qnot_le_lt. intros H. apply Qle_bool_iff in H. congruence. }
    destruct (Qlt_le_dec x 0) as [Hx|Hx].
    + destruct (rem_neg x Hx). split; lra.
    + destruct (rem_nonneg x Hx). lra.
Qed.

(** The closed interval, which the result also respects when the addition
    in [wrap360] rounds. *)
Lemma wrap360_le_360 (deg : Q) : 0 <= wrap360 deg /\ wrap360 deg <= 360.
Proof. destruct (wrap360_range deg). split; lra. Qed.

Lemma wrap360_cong (x : Q) : exists k : Z, wrap360 x == x + 360 * inject_Z k.
Proof.
  destruct (rem_cong x) as [k Hk]. unfold wrap360. cbv zeta.
  destruct (ltb (rem x 360) 0).
  - exists (k + 1)%Z. rewrite inject_Z_plus. change (inject_Z 1) with 1. lra.
  - exists k. exact Hk.
Qed.

Lemma wrap180_range (x : Q) : -180 <= wrap180 x /\ wrap180 x < 180.
Proof.
  unfold wrap180. cbv zeta.
  assert (H1 : -360 < rem (x + 180) 360 /\ rem (x + 180) 360 < 360).
  { destruct (Qlt_le_dec (x + 180) 0) as [Hx|Hx].
    - destruct (rem_neg _ Hx). split; lra.
    - destruct (rem_nonneg _ Hx). split; lra. }
  assert (H2 : 0 <= rem (x + 180) 360 + 360) by lra.
  destruct (rem_nonneg _ H2). split; lra.
Qed.

Lemma wrap180_cong (x : Q) : exists k : Z, wrap180 x == x + 360 * inject_Z k.
Proof.
  unfold wrap180. cbv zeta.
  destruct (rem_cong (x + 180)) as [k1 H1].
  destruct (rem_cong (rem (x + 180) 360 + 360)) as [k2 H2].
  exists (k1 + k2 + 1)%Z. rewrite !inject_Z_plus. change (inject_Z 1) with 1. lra.
Qed.

(** Two numbers of a half-open window of length 360 that differ by a whole
    number of turns are equal. *)
Lemma turn_unique (lo a b : Q) (k : Z) :
  lo <= a -> a < lo + 360 -> lo <= b -> b < lo + 360 ->
  a == b + 360 * inject_Z k -> a == b.
Proof.
  intros La Ua Lb Ub E.
  assert (Hk : k = 0%Z).
  { assert (L : inject_Z (-1) < inject_Z k) by (change (inject_Z (-1)) with (-1); lra).
    assert (U : inject_Z k < inject_Z 1) by (change (inject_Z 1) with 1; lra).
    rewrite <- Zlt_Qlt in L, U. lia. }
  subst k. change (inject_Z 0) with 0 in E. lra.
Qed.

Lemma wrap360_unique (x r : Q) (k : Z) :
  0 <= r -> r < 360 -> r == x + 360 * inject_Z k -> wrap360 x == r.
Proof.
  intros L U E. destruct (wrap360_range x) as [L' U'].
  destruct (wrap360_cong x) as [k' E'].
  apply (turn_unique 0 _ _ (k' - k)); try lra.
  unfold Z.sub. rewrite inject_Z_plus, inject_Z_opp. lra.
Qed.

Lemma wrap180_unique (x r : Q) (k : Z) :
  -180 <= r -> r < 180 -> r == x + 360 * inject_Z k -> wrap180 x == r.
Proof.
  intros L U E. destruct (wrap180_range x) as [L' U'].
  destruct (wrap180_cong x) as [k' E'].
  apply (turn_unique (-180) _ _ (k' - k)); try lra.
  unfold Z.sub. rewrite inject_Z_plus, inject_Z_opp. lra.
Qed.

Lemma wrap360_comp (p q : Q) : p == q -> wrap360 p == wrap360 q.
Proof.
  intros E. destruct (wrap360_range q) as [L U].
  destruct (wrap360_cong q) as [k Hk].
  apply (wrap360_unique p _ k); lra.
Qed.

Lemma wrap180_comp (p q : Q) : p == q -> wrap180 p == wrap180 q.
Proof.
  intros E. destruct (wrap180_range q) as [L U].
  destruct (wrap180_cong q) as [k Hk].
  apply (wrap180_unique p _ k); lra.
Qed.

(** C6 (counterexample): at 180 degrees the normalization returns -180, so
    the result is not strictly greater than -180. *)
Lemma wrap180_reaches_minus_180 :
  ~ (-180 < wrap180 180 /\ wrap180 180 <= 180).
Proof. intros [H _]. revert H. qeval. Qed.

(** C6 (amended): for every input angle, [wrap180] returns a value in the
    half-open interval [-180, 180): at least -180 and strictly below 180. *)
Theorem wrap180_half_open_range (deg : Q) :
  -180 <= wrap180 deg /\ wrap180 deg < 180.
Proof. apply wrap180_range. Qed.

End GeoFacts.

(** ** Facts about projection.ts *)

Module ProjectionFacts.
Import Js Geo Projection.

Lemma clamp_range (lo hi v : Q) : lo <= hi -> lo <= Qmax lo (Qmin hi v) /\ Qmax lo (Qmin hi v) <= hi.
Proof. intros H. split; qminmax; lra. Qed.

Lemma clamp_mono (lo hi u v : Q) : u <= v -> Qmax lo (Qmin hi u) <= Qmax lo (Qmin hi v).
Proof. intros H. apply Q.max_le_compat_l. apply Q.min_le_compat_l. exact H. Qed.

Lemma clamp_id (lo hi v : Q) : lo <= v -> v <= hi -> Qmax lo (Qmin hi v) == v.
Proof. intros L U. qminmax; lra. Qed.

Lemma ratio_mono (a b d : Q) : 0 < d -> a <= b -> a / d <= b / d.
Proof.
  intros Hd H. unfold Qdiv. apply Qmult_le_compat_r; [exact H|].
  apply Qinv_le_0_compat. lra.
Qed.

(** The projection of the two ends and the middle of the field of view, as
    the code computes it: the ends land on the quarter lines of the
    viewport. *)
Lemma azimuthToScreenX_fov_ends (hfovDeg width : Q) :
  0 < hfovDeg -> 0 <= width ->
  azimuthToScreenX (- (hfovDeg / 2)) hfovDeg width == width / 4
  /\ azimuthToScreenX 0 hfovDeg width == width / 2
  /\ azimuthToScreenX (hfovDeg / 2) hfovDeg width == 3 * width / 4.
Proof.
  intros Hf Hw. unfold azimuthToScreenX. cbv zeta.
  assert (E1 : - (hfovDeg / 2) / hfovDeg == - (1 # 2)) by (field; lra).
  assert (E2 : 0 / hfovDeg == 0) by (field; lra).
  assert (E3 : hfovDeg / 2 / hfovDeg == 1 # 2) by (field; lra).
  rewrite E1, E2, E3.
  repeat split; rewrite clamp_id; try field; unfold Qdiv;
    change (/ 2) with (1 # 2); change (/ 4) with (1 # 4); lra.
Qed.

(** C5 (the code at the failing input): with a 60 degree field of view on an
    800 pixel wide viewport, the left end of the field of view, -30 degrees,
    is projected to x = 200 and the right end, +30 degrees, to x = 600; only
    the centre is where the claim puts it. *)
Theorem azimuthToScreenX_half_fov_quarter :
  azimuthToScreenX (-30) 60 800 == 200
  /\ azimuthToScreenX 30 60 800 == 600
  /\ azimuthToScreenX 0 60 800 == 400.
Proof. repeat split; qeval. Qed.

(** What the code computes for every pitch: [pitchToScreenY] is clamped to
    [0, height] and never increases with the pitch; on the unclamped range it
    is height/2 - pitch/vfov * height/2 and strictly decreasing. *)
Lemma pitchToScreenY_decreasing (vfovDeg height p1 p2 : Q) :
  0 < vfovDeg -> 0 <= height -> p1 <= p2 ->
  (0 <= pitchToScreenY p2 vfovDeg height /\ pitchToScreenY p2 vfovDeg height <= height)
  /\ pitchToScreenY p2 vfovDeg height <= pitchToScreenY p1 vfovDeg height
  /\ (- vfovDeg <= p2 -> p2 <= vfovDeg ->
      pitchToScreenY p2 vfovDeg height == height / 2 - (p2 / vfovDeg) * (height / 2))
  /\ (- vfovDeg <= p1 -> p2 <= vfovDeg -> p1 < p2 -> 0 < height ->
      pitchToScreenY p2 vfovDeg height < pitchToScreenY p1 vfovDeg height).
Proof.
  intros Hv Hh Hp. unfold pitchToScreenY. cbv zeta.
  assert (Hhh : 0 <= height / 2) by (unfold Qdiv; change (/ 2) with (1 # 2); lra).
  assert (Hneg : forall p, - p / vfovDeg == - (p / vfovDeg)) by (intros p; field; lra).
  assert (Hin : forall p, - vfovDeg <= p -> p <= vfovDeg ->
            -1 <= p / vfovDeg /\ p / vfovDeg <= 1).
  { intros p L U. split.
    - apply Qle_shift_div_l; [exact Hv | lra].
    - apply Qle_shift_div_r; [exact Hv | lra]. }
  assert (Hid : forall p, - vfovDeg <= p -> p <= vfovDeg ->
            Qmax 0 (Qmin height (- p / vfovDeg * (height / 2) + height / 2))
            == height / 2 - (p / vfovDeg) * (height / 2)).
  { intros p L U. destruct (Hin p L U) as [A B].
    rewrite (Hneg p). revert A B Hhh. generalize (p / vfovDeg). intros t A B Hhh.
    assert (height == 2 * (height / 2)) by (field).
    rewrite clamp_id; nra. }
  split; [apply clamp_range; exact Hh|].
  split; [|split].
  - apply clamp_mono. apply Qplus_le_l. apply Qmult_le_compat_r; [|exact Hhh].
    apply ratio_mono; [exact Hv | lra].
  - intros L U. apply Hid; assumption.
  - intros L U Hlt Hpos.
    rewrite (Hid p1) by lra. rewrite (Hid p2) by lra.
    assert (Hr : p1 / vfovDeg < p2 / vfovDeg).
    { unfold Qdiv. apply Qmult_lt_compat_r; [|exact Hlt]. apply Qinv_lt_0_compat. exact Hv. }
    assert (0 < height / 2) by (unfold Qdiv; change (/ 2) with (1 # 2); lra).
    revert Hr. generalize (p1 / vfovDeg) (p2 / vfovDeg). intros a b Hr. nra.
Qed.

(** C7 (the code at the failing input): on a viewport 600 pixels high with
    a vertical field of view of 45 degrees, the horizon of a level camera is
    at y = 300; a pitch of +10 degrees puts it at y = 700/3, about 233, and a
    pitch of -10 degrees at y = 1100/3, about 367.  The positive pitch gives
    the smaller y: the horizon, and the labels anchored to it, move up the
    screen. *)
Theorem pitchToScreenY_positive_pitch_smaller_y :
  pitchToScreenY 0 45 600 == 300
  /\ pitchToScreenY 10 45 600 == 700 # 3
  /\ pitchToScreenY (-10) 45 600 == 1100 # 3
  /\ pitchToScreenY 10 45 600 < pitchToScreenY 0 45 600.
Proof. repeat split; qeval. Qed.

End ProjectionFacts.

(** ** Facts about sensors.ts *)

Module SensorsFacts.
Import Js Geo Sensors GeoFacts ProjectionFacts.


(** *** Heading smoothing *)

Lemma gain_unit (h : Host) (factor : Q) :
  exp_contracts h -> 0 <= factor ->
  0 <= 1 - Math_exp h (- factor) /\ 1 - Math_exp h (- factor) <= 1.
Proof. intros C F. destruct (C factor F). split; lra. Qed.

(** Blending toward [next] with a gain in [0, 1], without rounding. *)
Lemma blend_shortest_path (prev next g : Q) :
  0 <= g -> g <= 1 ->
  let d := wrap180 (next - prev) in
  let out := wrap360 (prev + d * g) in
  (0 <= out /\ out < 360)
  /\ wrap180 (out - prev) == g * d
  /\ Qabs (wrap180 (out - prev)) <= Qabs d
  /\ (0 <= d -> 0 <= wrap180 (out - prev) /\ wrap180 (out - prev) <= d)
  /\ (d <= 0 -> d <= wrap180 (out - prev) /\ wrap180 (out - prev) <= 0).
Proof.
  intros G0 G1 d out.
  destruct (wrap180_range (next - prev)) as [L U]. fold d in L, U.
  assert (E : wrap180 (out - prev) == g * d).
  { destruct (wrap360_cong (prev + d * g)) as [k Hk]. fold out in Hk.
    apply (wrap180_unique _ _ (- k)).
    - nra.
    - nra.
    - rewrite inject_Z_opp. lra. }
  split; [apply wrap360_range|].
  split; [exact E|].
  split; [|split].
  - rewrite E. apply Qabs_Qle_condition.
    apply (Qabs_case d); intros Hd; split; nra.
  - intros Hd. rewrite E. split; nra.
  - intros Hd. rewrite E. split; nra.
Qed.

(** Without rounding: for every previous heading and every target heading,
    with a smoothing factor that is not negative, the smoothed heading lies
    in [0, 360); the signed circular move from the previous heading is the
    gain [1 - exp(-factor)] times the shortest circular delta
    [wrap180 (next - prev)], so it has the direction of that delta and at
    most its magnitude; and [emit] publishes exactly this heading.  On
    binary64 numbers the upper bound 360 is reached, as the facts about the
    seam on binary64 numbers show. *)
Lemma smoothAngle_shortest_path (h : Host) (prev next factor : Q) :
  exp_contracts h -> 0 <= factor ->
  let out := smoothAngle h prev next factor in
  let delta := wrap180 (next - prev) in
  (0 <= out /\ out < 360)
  /\ wrap180 (out - prev) == (1 - Math_exp h (- factor)) * delta
  /\ Qabs (wrap180 (out - prev)) <= Qabs delta
  /\ (0 <= delta -> 0 <= wrap180 (out - prev) /\ wrap180 (out - prev) <= delta)
  /\ (delta <= 0 -> delta <= wrap180 (out - prev) /\ wrap180 (out - prev) <= 0)
  /\ (forall e now,
        headingDeg (lastEmit e) = prev ->
        wrap360 (yaw e + headingOffsetDeg e) = next ->
        smoothing e = factor ->
        headingDeg (lastEmit (emit h now e)) = out).
Proof.
  intros C F out delta.
  destruct (gain_unit h factor C F) as [G0 G1].
  destruct (blend_shortest_path prev next _ G0 G1) as (R & E & A & P & N).
  repeat (split; [assumption|]).
  intros e now <- <- <-. reflexivity.
Qed.

(** The example of the seam, without rounding: from 2 degrees toward 358
    degrees the shortest delta is -4 degrees, and the heading moves between 0
    and 4 degrees backwards. *)
Lemma seam_delta : wrap180 (358 - 2) == -4.
Proof. qeval. Qed.

Lemma smoothAngle_across_seam (h : Host) (factor : Q) :
  exp_contracts h -> 0 <= factor ->
  -4 <= wrap180 (smoothAngle h 2 358 factor - 2)
  /\ wrap180 (smoothAngle h 2 358 factor - 2) <= 0.
Proof.
  intros C F. destruct (gain_unit h factor C F) as [G0 G1].
  destruct (blend_shortest_path 2 358 _ G0 G1) as (_ & _ & _ & _ & N).
  pose proof seam_delta as S.
  unfold smoothAngle. cbv zeta in *.
  rewrite <- S at 1. apply N. rewrite S. lra.
Qed.

(** *** Falling back to the virtual source *)









End SensorsFacts.

(** ** Facts about the seam on binary64 numbers *)

Module Binary64Facts.
Import PrimFloat Binary64.
#[local] Set Warnings "-inexact-float".
#[local] Open Scope float_scope.

(** Away from the seam the two embeddings agree to the last digits: from 2
    degrees toward 358 degrees the heading moves back across 0, to about
    1.44 degrees, and ordinary angles are wrapped as expected. *)
Lemma smoothAngle_across_seam_binary64 :
  smoothAngle (fun _ => exp_minus_0_15) 2 358 0.15 = 1.4428319057002312
  /\ wrap360 370.5 = 10.5 /\ wrap360 (-10) = 350 /\ wrap360 360 = 0
  /\ wrap180 356 = -4 /\ wrap180 180 = -180.
Proof. repeat split; vm_compute; reflexivity. Qed.

(** At the seam the addition in [wrap360] rounds: a negative remainder
    closer to 0 than half the spacing of the numbers below 360 is sent to
    360 itself. *)
Lemma wrap360_rounds_up_to_360 :
  rem (-1e-20) 360 = -1e-20 /\ wrap360 (-1e-20) = 360.
Proof. split; vm_compute; reflexivity. Qed.

(** [wrap180] rounds as well: the additions of 180 and 360 lose the last
    bits of a small angle. *)
Lemma wrap180_rounds : wrap180 0.1 = 0.10000000000002274.
Proof. vm_compute. reflexivity. Qed.

(** Seven [pointermove] events of one pixel to the right and one of seven
    pixels back leave the yaw at 360. *)
Lemma drag_back_leaves_yaw_360 :
  dragThrough 0 0 [1; 2; 3; 4; 5; 6; 7] = 0.7
  /\ dragThrough 0 0 [1; 2; 3; 4; 5; 6; 7; 0] = 360.
Proof. split; vm_compute; reflexivity. Qed.

(** After a drag of 100 pixels from rest the yaw is 10 degrees and the
    heading published with the default smoothing is about 1.39 degrees. *)
Lemma drag_publishes_smoothed_heading :
  dragThrough 0 0 [100] = 10
  /\ smoothedHeading (fun _ => exp_minus_0_15) 0 (dragThrough 0 0 [100]) 0 0.15
     = 1.3929202357494219.
Proof. split; vm_compute; reflexivity. Qed.

(** C2 (the code at the failing input): with the default smoothing 0.15,
    from the previous heading 0 toward the target 359.9999999999999, the
    shortest delta is about -1.1e-13 degrees, the blend [prev + delta * gain]
    is a negative number of about -1.6e-14, and [wrap360] returns 360 for it:
    [smoothAngle] returns 360, which is not below 360.  The engine publishes
    this heading on its first sample when it is started with a heading
    offset of 359.9999999999999, which [wrap360] leaves as it is. *)
Theorem smoothAngle_reaches_360 (Math_exp : number -> number) :
  Math_exp (-0.15) = exp_minus_0_15 ->
  wrap180 (359.9999999999999 - 0) = -1.1368683772161603e-13
  /\ smoothAngle Math_exp 0 359.9999999999999 0.15 = 360
  /\ (smoothAngle Math_exp 0 359.9999999999999 0.15 <? 360) = false
  /\ wrap360 (0 + 359.9999999999999) = 359.9999999999999
  /\ smoothedHeading Math_exp 0 0 359.9999999999999 0.15 = 360.
Proof.
  intros H.
  assert (S : smoothAngle Math_exp 0 359.9999999999999 0.15 = 360).
  { unfold smoothAngle. cbv zeta.
    change (opp 0.15) with (-0.15). rewrite H. vm_compute. reflexivity. }
  split; [vm_compute; reflexivity|]. split; [exact S|].
  split; [rewrite S; vm_compute; reflexivity|].
  assert (W : wrap360 (0 + 359.9999999999999) = 359.9999999999999)
    by (vm_compute; reflexivity).
  split; [exact W|].
  unfold smoothedHeading. cbv zeta. rewrite W. exact S.
Qed.

(** The theorem for a [Math.exp] that returns the value of
    [Math.exp(-0.15)]. *)
Lemma smoothAngle_reaches_360_witness :
  (fun _ : number => exp_minus_0_15) (-0.15) = exp_minus_0_15
  /\ smoothAngle (fun _ => exp_minus_0_15) 0 359.9999999999999 0.15 = 360.
Proof.
  split; [reflexivity|].
  exact (proj1 (proj2 (smoothAngle_reaches_360 (fun _ => exp_minus_0_15) eq_refl))).
Defined.

End Binary64Facts.

(** ** Facts about renderer.ts *)

Module RendererFacts.
Import Js Geo Projection Renderer GeoFacts ProjectionFacts.

(** *** The fade tracker *)

Lemma Qmax_0_nonpos (v : Q) : leb (Qmax 0 v) 0 = true -> Qmax 0 v = 0.
Proof.
  unfold leb. intros H. apply Qle_bool_iff in H.
  unfold Qmax, GenericMinMax.gmax in *.
  destruct (0 ?= v) eqn:E; try reflexivity.
  apply Qlt_alt in E. lra.
Qed.

Lemma updateKey_same (T : gset string) (dt : Q) (k : string) (m : gmap string Q) :
  alphaOf (updateKey T dt k m) k = faded (bool_decide (k ∈ T)) dt (alphaOf m k).
Proof.
  unfold updateKey, alphaOf, faded, fadeInPerSec, fadeOutPerSec. cbv zeta.
  destruct (bool_decide (k ∈ T)); simpl.
  - rewrite andb_false_r. rewrite lookup_insert_eq. reflexivity.
  - rewrite andb_true_r.
    destruct (leb (Qmax 0 (nullish (m !! k) 0 - 3 * dt)) 0) eqn:E.
    + rewrite lookup_delete_eq. simpl. symmetry. apply Qmax_0_nonpos. exact E.
    + rewrite lookup_insert_eq. reflexivity.
Qed.

Lemma updateKey_other (T : gset string) (dt : Q) (k k' : string) (m : gmap string Q) :
  k <> k' -> updateKey T dt k m !! k' = m !! k'.
Proof.
  intros Hne. unfold updateKey. cbv zeta.
  match goal with |- context [if ?b then _ else _] => destruct b end.
  - apply lookup_delete_ne. exact Hne.
  - apply lookup_insert_ne. exact Hne.
Qed.

Lemma fold_updateKey (T : gset string) (dt : Q) (m : gmap string Q) (l : list string) :
  NoDup l ->
  forall k,
    (k ∈ l -> alphaOf (foldr (updateKey T dt) m l) k
              = faded (bool_decide (k ∈ T)) dt (alphaOf m k))
    /\ (k ∉ l -> foldr (updateKey T dt) m l !! k = m !! k).
Proof.
  induction 1 as [|k0 l Hnotin Hnd IH]; intros k.
  - split; [intros H; inversion H | reflexivity].
  - simpl. destruct (decide (k0 = k)) as [->|Hne].
    + split; [|intros H; exfalso; apply H; left].
      intros _. rewrite updateKey_same.
      unfold alphaOf at 1. rewrite (proj2 (IH k) Hnotin). reflexivity.
    + split.
      * intros Hin. unfold alphaOf at 1. rewrite updateKey_other by exact Hne.
        apply (proj1 (IH k)). inversion Hin; subst; [congruence | assumption].
      * intros Hnin. rewrite updateKey_other by exact Hne.
        apply (proj2 (IH k)). intros Hin. apply Hnin. right. exact Hin.
Qed.

Lemma updateAlpha_key (T : gset string) (dt : Q) (m : gmap string Q) (k : string) :
  k ∈ dom m ∪ T ->
  alphaOf (updateAlpha T dt m) k = faded (bool_decide (k ∈ T)) dt (alphaOf m k).
Proof.
  intros Hk. unfold updateAlpha. cbv zeta.
  apply (fold_updateKey T dt m _ (NoDup_elements _) k).
  apply elem_of_elements. exact Hk.
Qed.

Lemma updateAlpha_absent (T : gset string) (dt : Q) (m : gmap string Q) (k : string) :
  k ∉ dom m ∪ T -> updateAlpha T dt m !! k = None.
Proof.
  intros Hk. unfold updateAlpha. cbv zeta.
  rewrite (proj2 (fold_updateKey T dt m _ (NoDup_elements _) k)).
  - apply not_elem_of_dom. set_solver.
  - rewrite elem_of_elements. exact Hk.
Qed.

Lemma faded_unit (vis : bool) (dt cur : Q) :
  0 <= dt -> 0 <= cur -> cur <= 1 ->
  0 <= faded vis dt cur /\ faded vis dt cur <= 1.
Proof.
  intros Hdt L U. unfold faded. destruct vis; split; qminmax; lra.
Qed.

Lemma alphaOf_unit (m : gmap string Q) (k : string) :
  unit_alphas m -> 0 <= alphaOf m k /\ alphaOf m k <= 1.
Proof.
  intros Hm. unfold alphaOf. destruct (m !! k) as [a|] eqn:E; simpl.
  - apply (Hm k a E).
  - split; lra.
Qed.

Lemma updateAlpha_unit (T : gset string) (dt : Q) (m : gmap string Q) :
  0 <= dt -> unit_alphas m -> unit_alphas (updateAlpha T dt m).
Proof.
  intros Hdt Hm k a Hka.
  destruct (decide (k ∈ dom m ∪ T)) as [Hin|Hout].
  - pose proof (updateAlpha_key T dt m k Hin) as E.
    unfold alphaOf at 1 in E. rewrite Hka in E. simpl in E. rewrite E.
    destruct (alphaOf_unit m k Hm). apply faded_unit; assumption.
  - rewrite (updateAlpha_absent T dt m k Hout) in Hka. discriminate.
Qed.


(** The time step of a frame whose clock did not go backwards lies in
    [0, 0.1]. *)
Lemma frameDt_range (now lastNowV : Q) :
  lastNowV <= now -> 0 <= frameDt now lastNowV /\ frameDt now lastNowV <= 0.1.
Proof.
  intros H. unfold frameDt. destruct (Qeq_bool lastNowV 0); [split; lra|].
  assert (0 <= (now - lastNowV) / 1000)
    by (unfold Qdiv; change (/ 1000) with (1 # 1000); lra).
  split; qminmax; lra.
Qed.

(** A frame keeps the stored alphas in [0, 1]. *)
Lemma render_keeps_unit_alphas (host : Host) (input : RendererInput) (now : Q)
    (fs : FrameState) :
  lastNow fs <= now -> unit_alphas (labelAlpha fs) ->
  unit_alphas (labelAlpha (snd (render host input now fs))).
Proof.
  intros Hn Hm. unfold render. simpl.
  apply updateAlpha_unit; [apply frameDt_range; exact Hn | exact Hm].
Qed.

Lemma singleton_unit_alphas (k : string) (a : Q) :
  0 <= a -> a <= 1 -> unit_alphas {[ k := a ]}.
Proof.
  intros L U k' a' H. apply lookup_singleton_Some in H. destruct H as [_ <-].
  split; assumption.
Qed.

(** C3: on an update with a time step that is not negative, every key of
    the tracker or of the target set gets the alpha [min(1, alpha + 4 dt)]
    when it is targeted and [max(0, alpha - 3 dt)] otherwise; stored alphas
    that were in [0, 1] stay in [0, 1]; and for the same positive time step
    an unclamped fade-in gains more than an unclamped fade-out loses. *)
Theorem updateAlpha_fades (T : gset string) (dt : Q) (m : gmap string Q) :
  0 <= dt -> unit_alphas m ->
  (forall k, k ∈ dom m ∪ T ->
     alphaOf (updateAlpha T dt m) k
     = if bool_decide (k ∈ T) then Qmin 1 (alphaOf m k + 4 * dt)
       else Qmax 0 (alphaOf m k - 3 * dt))
  /\ unit_alphas (updateAlpha T dt m)
  /\ (forall k, 0 <= alphaOf (updateAlpha T dt m) k /\ alphaOf (updateAlpha T dt m) k <= 1)
  /\ (forall k k' , k ∈ T -> k' ∈ dom m -> k' ∉ T -> 0 < dt ->
        alphaOf m k + 4 * dt <= 1 -> 0 <= alphaOf m k' - 3 * dt ->
        alphaOf m k' - alphaOf (updateAlpha T dt m) k'
        < alphaOf (updateAlpha T dt m) k - alphaOf m k).
Proof.
  intros Hdt Hm.
  split; [intros k Hk; apply (updateAlpha_key T dt m k Hk)|].
  split; [apply updateAlpha_unit; assumption|].
  split; [intros k; apply alphaOf_unit, updateAlpha_unit; assumption|].
  intros k k' Hk Hk' Hk'T Hpos Hin Hout.
  rewrite (updateAlpha_key T dt m k) by set_solver.
  rewrite (updateAlpha_key T dt m k') by set_solver.
  rewrite (bool_decide_eq_true_2 _ Hk), (bool_decide_eq_false_2 _ Hk'T).
  unfold faded. qminmax; lra.
Qed.

(** The theorem for one stored key at alpha 1/2, another key targeted, and
    a frame of a sixtieth of a second. *)
Lemma updateAlpha_fades_witness :
  0 <= 1 # 60 /\ unit_alphas {[ "A|X" := 1 # 2 ]}
  /\ unit_alphas (updateAlpha {[ "B|X" ]} (1 # 60) {[ "A|X" := 1 # 2 ]}).
Proof.
  assert (D : 0 <= 1 # 60) by qeval.
  assert (U : unit_alphas {[ "A|X" := 1 # 2 ]})
    by (apply singleton_unit_alphas; qeval).
  split; [exact D|]. split; [exact U|].
  pose proof (updateAlpha_fades {[ "B|X" ]} (1 # 60) {[ "A|X" := 1 # 2 ]} D U) as H.
  destruct H as (_ & H & _). exact H.
Defined.

(** *** The vertical search *)


Lemma existsb_none {A} (f : A -> bool) (l : list A) :
  existsb f l = false -> forall p, In p l -> f p = false.
Proof.
  intros E p Hp. destruct (f p) eqn:F; [|reflexivity].
  assert (existsb f l = true) by (apply existsb_exists; eauto). congruence.
Qed.

(** A slot returned by the search is a clamped candidate position that
    overlaps nothing in the pool. *)
Lemma searchY_sound (rect : Rect) (pool : list Rect) (height : Q)
    (candidates tried : list Q) (y0 : Q) :
  searchY rect pool height candidates tried = Some y0 ->
  (forall p, In p pool -> rectsOverlap p (withY rect y0) = false)
  /\ exists v, y0 = Qmax 0 (Qmin (height - h rect) v).
Proof.
  revert tried. induction candidates as [|v rest IH]; intros tried; simpl.
  - discriminate.
  - destruct (existsb _ tried); [apply IH|].
    destruct (existsb _ pool) eqn:E; simpl.
    + apply IH.
    + intros [= <-]. split; [|eauto].
      apply (existsb_none _ _ E).
Qed.

Lemma findNonOverlappingY_sound (rect : Rect) (pool : list Rect) (height : Q)
    (maxSteps : Z) (y0 : Q) :
  findNonOverlappingY rect pool height maxSteps = Some y0 ->
  (forall p, In p pool -> rectsOverlap p (withY rect y0) = false)
  /\ 0 <= y0
  /\ (h rect <= height -> y0 + h rect <= height).
Proof.
  unfold findNonOverlappingY. cbv zeta. intros H.
  destruct (searchY_sound _ _ _ _ _ _ H) as [D [v ->]].
  split; [exact D|]. split; [|intros Hh]; qminmax; lra.
Qed.



(** *** The body of the loop *)

Lemma renderItem_outcome (host : Host) (input : RendererInput) (la : gmap string Q)
    (st : Layout) (item : Candidate) :
  Outcome host input la st item (renderItem host input (horizonOf input) la st item).
Proof.
  unfold renderItem. cbv zeta.
  change (measureLabel host (composeText host (units input) item))
    with (measureText_width host (composeText host (units input) item) + 12, 24).
  cbv iota beta.
  fold (isOffscreen input item).
  destruct (isOffscreen input item) eqn:Off; simpl negb; cbv iota.
  - destruct (showOffscreenIndicators input) eqn:Show; simpl negb; cbv iota.
    2:{ apply outHidden; auto. }
    destruct (leb (nullish (la !! keyOf (c item)) 0) 0.01).
    { apply outHidden; auto. }
    fold (sideOf input item).
    destruct (sideOf input item) eqn:Sd.
    + match goal with |- context [findNonOverlappingY ?r ?p ?hh ?n] =>
        change (findNonOverlappingY r p hh n)
          with (edgeSlot host input Left (edgeLeftPlaced st) item) end.
      destruct (edgeSlot host input Left (edgeLeftPlaced st) item) as [y0|] eqn:E.
      * eapply outEdgeLeft; eauto.
      * apply outHidden; auto.
    + match goal with |- context [findNonOverlappingY ?r ?p ?hh ?n] =>
        change (findNonOverlappingY r p hh n)
          with (edgeSlot host input Right (edgeRightPlaced st) item) end.
      destruct (edgeSlot host input Right (edgeRightPlaced st) item) as [y0|] eqn:E.
      * eapply outEdgeRight; eauto.
      * apply outHidden; auto.
  - match goal with |- context [findNonOverlappingY ?r ?p ?hh ?n] =>
      change (findNonOverlappingY r p hh n)
        with (labelSlot host input (placed st) item) end.
    destruct (labelSlot host input (placed st) item) as [y0|] eqn:E.
    + eapply outPlaced; eauto. simpl.
      destruct (leb _ _); intros d Hd; [left; exact Hd|].
      apply in_app_or in Hd. destruct Hd as [Hd|[<-|[]]]; [left; exact Hd|right; reflexivity].
    + apply outDropped; auto.
Qed.

(** Induction over the loop of [render]. *)
Lemma layoutFrom_ind (host : Host) (input : RendererInput) (la : gmap string Q)
    (P : Layout -> Prop) (items : list Candidate) :
  (forall st item, In item items -> P st ->
     P (renderItem host input (horizonOf input) la st item)) ->
  forall st, P st -> P (layoutFrom host input la st items).
Proof.
  unfold layoutFrom. induction items as [|item items IH]; intros Hstep st Hst.
  - exact Hst.
  - simpl. apply IH.
    + intros st' item' Hin. apply Hstep. right. exact Hin.
    + apply Hstep; [left; reflexivity | exact Hst].
Qed.

Lemma layoutFrom_app (host : Host) (input : RendererInput) (la : gmap string Q)
    (st : Layout) (l1 l2 : list Candidate) :
  layoutFrom host input la st (l1 ++ l2)
  = layoutFrom host input la (layoutFrom host input la st l1) l2.
Proof. unfold layoutFrom. apply foldl_app. Qed.

(** *** Pools stay free of overlaps *)





(** *** Rectangles stay in the viewport when the labels fit *)

(** A label is clamped to x >= 4 and x <= width - w - 4: it fits when its
    width leaves 4 pixels. *)
Lemma desiredRect_fits (host : Host) (input : RendererInput) (item : Candidate) (y0 : Q) :
  24 <= height input ->
  labelWidth host input item + 4 <= width input ->
  forall pool, labelSlot host input pool item = Some y0 ->
  inViewport input (withY (desiredRect host input (horizonOf input) item) y0).
Proof.
  intros Hh Hw pool S.
  destruct (findNonOverlappingY_sound _ _ _ _ _ S) as (_ & Y0 & Y1).
  unfold inViewport, labelWidth in *. simpl in *.
  repeat split.
  - qminmax; lra.
  - qminmax; lra.
  - exact Y0.
  - apply Y1. exact Hh.
Qed.

(** An edge rectangle starts at x = 6 or ends at x = width - 6: it fits
    when its width leaves 6 pixels. *)
Lemma edgeRect_fits (host : Host) (input : RendererInput) (side : Side)
    (item : Candidate) (pool : list Rect) (y0 : Q) :
  24 <= height input ->
  labelWidth host input item + 6 <= width input ->
  edgeSlot host input side pool item = Some y0 ->
  inViewport input (withY (edgeRectFor host input side item) y0).
Proof.
  intros Hh Hw S.
  destruct (findNonOverlappingY_sound _ _ _ _ _ S) as (_ & Y0 & Y1).
  unfold inViewport, labelWidth in *. destruct side; simpl in *.
  all: repeat split; try exact Y0; try (apply Y1; exact Hh); lra.
Qed.

Lemma outcome_in_viewport (host : Host) (input : RendererInput) (la : gmap string Q)
    (st st' : Layout) (item : Candidate) :
  24 <= height input ->
  (isOffscreen input item = false -> labelWidth host input item + 4 <= width input) ->
  (isOffscreen input item = true -> showOffscreenIndicators input = true ->
     labelWidth host input item + 6 <= width input) ->
  Outcome host input la st item st' ->
  poolsInViewport input st -> poolsInViewport input st'.
Proof.
  intros Hh Hon Hoff O V.
  destruct O as [_ _ ->|y0 On S E1 E2 E3 _ _|_ E1 E2 E3 _ _
                |y0 Off Sh S E1 E2 E3 _|y0 Off Sh S E1 E2 E3 _];
    try exact V; intros r; rewrite ?E1, ?E2, ?E3; rewrite ?in_app_iff; simpl;
    intros Hr.
  - destruct Hr as [[Hr|[<-|[]]]|Hr]; [apply V; tauto| |apply V; tauto].
    apply (desiredRect_fits host input item y0 Hh (Hon On) _ S).
  - apply V. exact Hr.
  - destruct Hr as [Hr|[[Hr|[<-|[]]]|Hr]]; [apply V; tauto|apply V; tauto| |apply V; tauto].
    apply (edgeRect_fits host input Left item _ y0 Hh (Hoff Off Sh) S).
  - destruct Hr as [Hr|[Hr|[Hr|[<-|[]]]]]; [apply V; tauto|apply V; tauto|apply V; tauto|].
    apply (edgeRect_fits host input Right item _ y0 Hh (Hoff Off Sh) S).
Qed.

(** C8 (counterexample): a label of 112 pixels on a viewport 100 pixels
    wide is placed at x = 4 and ends at x = 116, outside the viewport. *)
Lemma wide_label_leaves_viewport :
  ~ (forall r, In r (placed (layoutFrame Sample.host Sample.narrow ∅)) ->
       0 <= x r /\ x r + w r <= width Sample.narrow
       /\ 0 <= y r /\ y r + h r <= height Sample.narrow).
Proof.
  intros H.
  assert (Hex : exists r, In r (placed (layoutFrame Sample.host Sample.narrow ∅))
                          /\ ~ x r + w r <= width Sample.narrow).
  { vm_compute. eexists. split; [left; reflexivity|]. qeval. }
  destruct Hex as (r & Hin & Hx). apply Hx. apply (H r Hin).
Qed.

(** C8 (amended): when the field of view is not 0 (the projection divides
    by it), the viewport is at least 24 pixels high, the padded label width
    of every candidate inside the field of view leaves 4 pixels of the
    viewport's width and, if edge indicators are shown, that of every
    candidate outside it leaves 6 pixels, then every rectangle of the
    on-screen pool and of the two edge lanes lies entirely within the
    viewport. *)
Theorem fitting_labels_stay_in_viewport (host : Host) (input : RendererInput)
    (la : gmap string Q) :
  24 <= height input ->
  ~ hfovDeg input == 0 ->
  (forall item, In item (buildCandidates host input) ->
     (isOffscreen input item = false -> labelWidth host input item + 4 <= width input)
     /\ (isOffscreen input item = true -> showOffscreenIndicators input = true ->
         labelWidth host input item + 6 <= width input)) ->
  let st := layoutFrame host input la in
  forall r, In r (placed st) \/ In r (edgeLeftPlaced st) \/ In r (edgeRightPlaced st) ->
    0 <= x r /\ x r + w r <= width input /\ 0 <= y r /\ y r + h r <= height input.
Proof.
  intros Hh _ Hw st. unfold st, layoutFrame.
  apply (layoutFrom_ind host input la (poolsInViewport input)).
  - intros st0 item Hin. destruct (Hw item Hin) as [Hon Hoff].
    apply (outcome_in_viewport host input la st0 _ item);
      [exact Hh | exact Hon | exact Hoff | apply renderItem_outcome].
  - intros r [[]|[[]|[]]].
Qed.

(** The theorem on the snug frame: the label of 112 pixels is placed at
    x = 4 on a viewport of 118 by 200 pixels and ends at x = 116. *)
Lemma fitting_labels_stay_in_viewport_witness :
  24 <= height Sample.snug
  /\ ~ hfovDeg Sample.snug == 0
  /\ (forall item, In item (buildCandidates Sample.host Sample.snug) ->
        (isOffscreen Sample.snug item = false ->
         labelWidth Sample.host Sample.snug item + 4 <= width Sample.snug)
        /\ (isOffscreen Sample.snug item = true ->
            showOffscreenIndicators Sample.snug = true ->
            labelWidth Sample.host Sample.snug item + 6 <= width Sample.snug))
  /\ (exists r, placed (layoutFrame Sample.host Sample.snug ∅) = [r]
                /\ x r == 4 /\ w r == 112)
  /\ forall r, In r (placed (layoutFrame Sample.host Sample.snug ∅)) ->
       0 <= x r /\ x r + w r <= width Sample.snug
       /\ 0 <= y r /\ y r + h r <= height Sample.snug.
Proof.
  assert (Hh : 24 <= height Sample.snug) by qeval.
  assert (Hf : ~ hfovDeg Sample.snug == 0) by qeval.
  assert (Hw : forall item, In item (buildCandidates Sample.host Sample.snug) ->
        (isOffscreen Sample.snug item = false ->
         labelWidth Sample.host Sample.snug item + 4 <= width Sample.snug)
        /\ (isOffscreen Sample.snug item = true ->
            showOffscreenIndicators Sample.snug = true ->
            labelWidth Sample.host Sample.snug item + 6 <= width Sample.snug)).
  { intros item Hin. vm_compute in Hin. destruct Hin as [<-|[]].
    split; [intros _; qeval | intros Off; vm_compute in Off; discriminate]. }
  split; [exact Hh|]. split; [exact Hf|]. split; [exact Hw|].
  split.
  { vm_compute. eexists. split; [reflexivity|]. split; reflexivity. }
  intros r Hr.
  pose proof (fitting_labels_stay_in_viewport Sample.host Sample.snug ∅ Hh Hf Hw) as H.
  cbv zeta in H. exact (H r (or_introl Hr)).
Defined.

(** *** Which keys reach the visible-target set *)

Lemma outcome_keys_grow (host : Host) (input : RendererInput) (la : gmap string Q)
    (st st' : Layout) (item : Candidate) :
  Outcome host input la st item st' ->
  visibleKeys st ⊆ visibleKeys st'
  /\ (forall r, In r (placed st) -> In r (placed st'))
  /\ (forall k, k ∈ visibleKeys st' -> k ∈ visibleKeys st \/ k = keyOf (c item)).
Proof.
  assert (G : forall (K K' : gset string) k0, K' = K ∪ {[ k0 ]} ->
            K ⊆ K' /\ (forall k, k ∈ K' -> k ∈ K \/ k = k0)).
  { intros K K' k0 ->. split; [apply union_subseteq_l|].
    intros k. rewrite elem_of_union, elem_of_singleton. tauto. }
  intros O.
  destruct O as [_ _ ->|y0 _ S E1 E2 E3 E4 _|_ E1 E2 E3 E4 _
                |y0 _ _ S E1 E2 E3 E4|y0 _ _ S E1 E2 E3 E4].
  - split; [reflexivity|]. split; [auto|]. intros k Hk. left. exact Hk.
  - destruct (G _ _ _ E4) as [G1 G2]. split; [exact G1|]. split; [|exact G2].
    intros r Hr. rewrite E1. apply in_app_iff. left. exact Hr.
  - destruct (G _ _ _ E4) as [G1 G2]. split; [exact G1|]. split; [|exact G2].
    intros r Hr. rewrite E1. exact Hr.
  - destruct (G _ _ _ E4) as [G1 G2]. split; [exact G1|]. split; [|exact G2].
    intros r Hr. rewrite E1. exact Hr.
  - destruct (G _ _ _ E4) as [G1 G2]. split; [exact G1|]. split; [|exact G2].
    intros r Hr. rewrite E1. exact Hr.
Qed.

Lemma layoutFrom_keys_grow (host : Host) (input : RendererInput) (la : gmap string Q)
    (items : list Candidate) (st : Layout) :
  visibleKeys st ⊆ visibleKeys (layoutFrom host input la st items)
  /\ (forall r, In r (placed st) -> In r (placed (layoutFrom host input la st items))).
Proof.
  apply (layoutFrom_ind host input la
           (fun st' => visibleKeys st ⊆ visibleKeys st'
                       /\ (forall r, In r (placed st) -> In r (placed st')))).
  - intros st0 item _ [K P].
    destruct (outcome_keys_grow _ _ _ _ _ _ (renderItem_outcome host input la st0 item))
      as (K' & P' & _).
    split; [etransitivity; eassumption | auto].
  - split; [reflexivity | auto].
Qed.

Lemma layoutFrom_keys_origin (host : Host) (input : RendererInput) (la : gmap string Q)
    (items : list Candidate) (st : Layout) (k : string) :
  k ∈ visibleKeys (layoutFrom host input la st items) ->
  k ∈ visibleKeys st \/ exists item, In item items /\ keyOf (c item) = k.
Proof.
  revert k.
  apply (layoutFrom_ind host input la
           (fun st' => forall k, k ∈ visibleKeys st' ->
              k ∈ visibleKeys st \/ exists item, In item items /\ keyOf (c item) = k)).
  - intros st0 item Hin IH k Hk.
    destruct (outcome_keys_grow _ _ _ _ _ _ (renderItem_outcome host input la st0 item))
      as (_ & _ & K).
    destruct (K k Hk) as [Hk0| ->]; [apply IH; exact Hk0 | right; eauto].
  - intros k Hk. left. exact Hk.
Qed.

Lemma offscreen_item_targeted (host : Host) (input : RendererInput) (la : gmap string Q)
    (st : Layout) (item : Candidate) :
  isOffscreen input item = true ->
  keyOf (c item) ∈ visibleKeys (renderItem host input (horizonOf input) la st item).
Proof.
  intros Off.
  destruct (renderItem_outcome host input la st item)
    as [O _ _|y0 O _ _ _ _ _ _|_ _ _ _ E _|y0 _ _ _ _ _ _ E|y0 _ _ _ _ _ _ E];
    try congruence; rewrite E; apply elem_of_union_r, elem_of_singleton; reflexivity.
Qed.

Lemma placed_item_targeted (host : Host) (input : RendererInput) (la : gmap string Q)
    (st : Layout) (item : Candidate) (y0 : Q) :
  isOffscreen input item = false ->
  labelSlot host input (placed st) item = Some y0 ->
  let st' := renderItem host input (horizonOf input) la st item in
  keyOf (c item) ∈ visibleKeys st'
  /\ In (withY (desiredRect host input (horizonOf input) item) y0) (placed st').
Proof.
  intros Off S st'.
  destruct (renderItem_outcome host input la st item)
    as [_ S' _|y1 _ S' E _ _ K _|O _ _ _ _ _|y1 O _ _ _ _ _ _|y1 O _ _ _ _ _ _];
    try congruence.
  fold st' in E, K. rewrite E, K.
  split; [apply elem_of_union_r, elem_of_singleton; reflexivity|].
  apply in_app_iff. right. left. congruence.
Qed.

Lemma dropped_item_skipped (host : Host) (input : RendererInput) (la : gmap string Q)
    (st : Layout) (item : Candidate) :
  isOffscreen input item = false ->
  labelSlot host input (placed st) item = None ->
  renderItem host input (horizonOf input) la st item = st.
Proof.
  intros Off S.
  destruct (renderItem_outcome host input la st item)
    as [_ _ E|y1 _ S' _ _ _ _ _|O _ _ _ _ _|y1 O _ _ _ _ _ _|y1 O _ _ _ _ _ _];
    congruence.
Qed.

Lemma insertByPopulation_In (a b : Candidate) (l : list Candidate) :
  In b (insertByPopulation a l) <-> b = a \/ In b l.
Proof.
  induction l as [|d l IH]; simpl.
  - intuition congruence.
  - destruct (ltb _ _); simpl; [rewrite IH|]; intuition congruence.
Qed.

Lemma sortByPopulation_In (b : Candidate) (l : list Candidate) :
  In b (sortByPopulation l) <-> In b l.
Proof.
  unfold sortByPopulation. induction l as [|a l IH]; simpl; [tauto|].
  rewrite insertByPopulation_In, IH. intuition congruence.
Qed.

Lemma buildCandidates_in_range (host : Host) (input : RendererInput) (item : Candidate) :
  In item (buildCandidates host input)
  <-> exists c0, In c0 (cities input) /\ item = candidateOf host input c0
                 /\ distKm item <= maxDistanceKm input.
Proof.
  unfold buildCandidates. cbv zeta. rewrite sortByPopulation_In.
  rewrite <- list_elem_of_In, list_elem_of_filter, list_elem_of_In, in_map_iff.
  unfold leb. rewrite Qle_bool_iff. split.
  - intros [Hd [c0 [<- Hc]]]. exists c0. auto.
  - intros [c0 (Hc & -> & Hd)]. split; [exact Hd|]. exists c0. auto.
Qed.

(** C1 (counterexample): of four cities on the same bearing on a viewport
    100 pixels high, the fourth is in range and on-screen, finds no slot, and
    its key is not in the frame's visible-target set. *)
Lemma dropped_label_not_targeted :
  ~ (forall item, In item (buildCandidates Sample.host Sample.crowded) ->
       keyOf (c item) ∈ visibleKeys (layoutFrame Sample.host Sample.crowded ∅)).
Proof.
  intros H.
  specialize (H (candidateOf Sample.host Sample.crowded (Sample.cityAt "D" 0 1000000))).
  assert (Hin : In (candidateOf Sample.host Sample.crowded (Sample.cityAt "D" 0 1000000))
                  (buildCandidates Sample.host Sample.crowded)).
  { apply buildCandidates_in_range. eexists. split; [|split; [reflexivity|]].
    - simpl. tauto.
    - qeval. }
  apply H in Hin.
  assert (B : bool_decide
                (keyOf (c (candidateOf Sample.host Sample.crowded
                             (Sample.cityAt "D" 0 1000000)))
                 ∈ visibleKeys (layoutFrame Sample.host Sample.crowded ∅)) = false)
    by (vm_compute; reflexivity).
  apply bool_decide_eq_false in B. exact (B Hin).
Qed.

(** C1 (amended): a candidate of the frame is within the distance limit; if
    it is routed to the off-screen case its key is in the frame's
    visible-target set; if it is on-screen and the vertical search finds a
    slot, its rectangle is placed and its key is in the set; if it is
    on-screen and no slot is found, the loop body leaves the layout, and so
    the set, as it was.  Every key of the set is the key of a candidate. *)
Theorem visible_keys_follow_placement (host : Host) (input : RendererInput)
    (la : gmap string Q) (pre post : list Candidate) (item : Candidate) :
  buildCandidates host input = pre ++ item :: post ->
  let before := layoutFrom host input la emptyLayout pre in
  let final := layoutFrame host input la in
  distKm item <= maxDistanceKm input
  /\ (isOffscreen input item = true -> keyOf (c item) ∈ visibleKeys final)
  /\ (isOffscreen input item = false ->
      forall y0, labelSlot host input (placed before) item = Some y0 ->
        keyOf (c item) ∈ visibleKeys final
        /\ In (withY (desiredRect host input (horizonOf input) item) y0) (placed final))
  /\ (isOffscreen input item = false ->
      labelSlot host input (placed before) item = None ->
      renderItem host input (horizonOf input) la before item = before)
  /\ (forall k, k ∈ visibleKeys final ->
        exists item', In item' (buildCandidates host input) /\ keyOf (c item') = k).
Proof.
  intros Hsplit before final.
  assert (Hfinal : final = layoutFrom host input la
                     (renderItem host input (horizonOf input) la before item) post).
  { unfold final, layoutFrame. rewrite Hsplit, layoutFrom_app. reflexivity. }
  destruct (layoutFrom_keys_grow host input la post
              (renderItem host input (horizonOf input) la before item)) as [K P].
  rewrite <- Hfinal in K, P.
  split; [|split; [|split; [|split]]].
  - assert (Hin : In item (buildCandidates host input))
      by (rewrite Hsplit; apply in_app_iff; right; left; reflexivity).
    apply buildCandidates_in_range in Hin. destruct Hin as (c0 & _ & _ & Hd). exact Hd.
  - intros Off. apply K. apply offscreen_item_targeted. exact Off.
  - intros Off y0 S.
    destruct (placed_item_targeted host input la before item y0 Off S) as [Hk Hr].
    split; [apply K; exact Hk | apply P; exact Hr].
  - intros Off S. apply dropped_item_skipped; assumption.
  - intros k Hk. unfold final, layoutFrame in Hk.
    apply layoutFrom_keys_origin in Hk. destruct Hk as [Hk|Hk]; [|exact Hk].
    simpl in Hk. apply not_elem_of_empty in Hk. destruct Hk.
Qed.


(** The theorem on the crowded frame, for the third city, which is placed
    in the lowest slot. *)
Lemma visible_keys_follow_placement_witness :
  let A := candidateOf Sample.host Sample.crowded (Sample.cityAt "A" 0 4000000) in
  let B := candidateOf Sample.host Sample.crowded (Sample.cityAt "B" 0 3000000) in
  let C := candidateOf Sample.host Sample.crowded (Sample.cityAt "C" 0 2000000) in
  let D := candidateOf Sample.host Sample.crowded (Sample.cityAt "D" 0 1000000) in
  buildCandidates Sample.host Sample.crowded = [A; B] ++ C :: [D]
  /\ keyOf (c C) ∈ visibleKeys (layoutFrame Sample.host Sample.crowded ∅).
Proof.
  intros A B C D.
  assert (E : buildCandidates Sample.host Sample.crowded = [A; B] ++ C :: [D])
    by (vm_compute; reflexivity).
  split; [exact E|].
  destruct (visible_keys_follow_placement Sample.host Sample.crowded ∅ _ _ _ E)
    as (_ & _ & On & _).
  refine (proj1 (On _ _ _)); vm_compute; reflexivity.
Defined.

(** *** The setting [showOffscreenIndicators] *)

Lemma withIndicators_same (input : RendererInput) :
  withIndicators (showOffscreenIndicators input) input = input.
Proof. destruct input; reflexivity. Qed.











End RendererFacts.

(** * Further properties *)

(** ** geo.ts *)

Module GeoExtras.
Import Js Geo GeoFacts ProjectionFacts.

(** X1: [wrap360] returns a value in [0, 360], and an angle already in
    [0, 360) comes back unchanged: there the remainder is the angle itself
    and nothing is added. *)
Theorem wrap360_within_one_turn (deg : Q) :
  (0 <= wrap360 deg /\ wrap360 deg <= 360)
  /\ (0 <= deg -> deg < 360 -> rem deg 360 == deg /\ wrap360 deg == deg).
Proof.
  destruct (wrap360_range deg) as [L U].
  split; [apply wrap360_le_360|].
  intros L0 U0.
  assert (E : wrap360 deg == deg).
  { apply (wrap360_unique deg deg 0); try assumption.
    change (inject_Z 0) with 0. lra. }
  split; [|exact E].
  destruct (rem_nonneg deg L0) as [R0 R1].
  unfold wrap360, ltb in E. cbv zeta in E.
  destruct (Qle_bool 0 (rem deg 360)) eqn:B; simpl in E; [exact E|].
  exfalso. apply Qle_bool_iff in R0. congruence.
Qed.



End GeoExtras.

(** ** projection.ts *)

Module ProjectionExtras.
Import Js Geo Projection Renderer GeoFacts ProjectionFacts.

(** X4: for a positive field of view and a width that is not negative,
    [azimuthToScreenX] stays within [0, width], never decreases when the
    azimuth delta grows, and is pinned to 0 and to [width] for deltas at or
    beyond minus and plus the full field of view. *)
Theorem azimuthToScreenX_clamped_monotone (hfovDeg width d1 d2 : Q) :
  0 < hfovDeg -> 0 <= width -> d1 <= d2 ->
  (0 <= azimuthToScreenX d1 hfovDeg width /\ azimuthToScreenX d1 hfovDeg width <= width)
  /\ azimuthToScreenX d1 hfovDeg width <= azimuthToScreenX d2 hfovDeg width
  /\ (d1 <= - hfovDeg -> azimuthToScreenX d1 hfovDeg width == 0)
  /\ (hfovDeg <= d2 -> azimuthToScreenX d2 hfovDeg width == width).
Proof.
  intros Hf Hw Hd. unfold azimuthToScreenX. cbv zeta.
  assert (Hhw : 0 <= width / 2) by (unfold Qdiv; change (/ 2) with (1 # 2); lra).
  assert (E : width == 2 * (width / 2)) by field.
  split; [|split; [|split]].
  - assert (G : 0 <= Qmax 0 (Qmin width (d1 / hfovDeg * (width / 2) + width / 2))
               /\ Qmax 0 (Qmin width (d1 / hfovDeg * (width / 2) + width / 2)) <= width)
      by (apply clamp_range; exact Hw).
    exact G.
  - apply clamp_mono. apply Qplus_le_l. apply Qmult_le_compat_r; [|exact Hhw].
    apply ratio_mono; assumption.
  - intros Hl.
    assert (R : d1 / hfovDeg <= -1) by (apply Qle_shift_div_r; [exact Hf | lra]).
    revert R. generalize (d1 / hfovDeg). intros t R. qminmax; nra.
  - intros Hr.
    assert (R : 1 <= d2 / hfovDeg) by (apply Qle_shift_div_l; [exact Hf | lra]).
    revert R. generalize (d2 / hfovDeg). intros t R. qminmax; nra.
Qed.

(** X5: for a field of view that is not negative, a delta is within the
    field of view exactly when its magnitude is at most half of it; a delta
    outside is on the left when it is below minus half the field of view and
    on the right when it is above half of it; and the test is symmetric. *)
Theorem offscreen_side (deltaAzDeg hfovDeg : Q) :
  0 <= hfovDeg ->
  (isWithinFov deltaAzDeg hfovDeg = true <-> Qabs deltaAzDeg <= hfovDeg / 2)
  /\ (isWithinFov deltaAzDeg hfovDeg = false ->
        (edgeSide deltaAzDeg = Left /\ deltaAzDeg < - (hfovDeg / 2))
        \/ (edgeSide deltaAzDeg = Right /\ hfovDeg / 2 < deltaAzDeg))
  /\ isWithinFov (- deltaAzDeg) hfovDeg = isWithinFov deltaAzDeg hfovDeg.
Proof.
  intros Hf.
  assert (Hh : 0 <= hfovDeg / 2) by (unfold Qdiv; change (/ 2) with (1 # 2); lra).
  assert (W : forall d, isWithinFov d hfovDeg = true
                        <-> - (hfovDeg / 2) <= d /\ d <= hfovDeg / 2).
  { intros d. unfold isWithinFov, leb. cbv zeta.
    rewrite andb_true_iff, !Qle_bool_iff. tauto. }
  split; [|split].
  - rewrite W, Qabs_Qle_condition. tauto.
  - intros Off.
    assert (N : ~ (- (hfovDeg / 2) <= deltaAzDeg /\ deltaAzDeg <= hfovDeg / 2)).
    { intros H. apply W in H. congruence. }
    unfold edgeSide, ltb.
    destruct (Qle_bool 0 deltaAzDeg) eqn:E; simpl.
    + apply Qle_bool_iff in E. right. split; [reflexivity|].
      apply Qnot_le_lt. intros H. apply N. split; lra.
    + assert (deltaAzDeg < 0).
      { apply Qnot_le_lt. intros H. apply Qle_bool_iff in H. congruence. }
      left. split; [reflexivity|].
      apply Qnot_le_lt. intros H'. apply N. split; lra.
  - destruct (isWithinFov deltaAzDeg hfovDeg) eqn:A.
    + apply W. apply W in A. split; lra.
    + destruct (isWithinFov (- deltaAzDeg) hfovDeg) eqn:B; [|reflexivity].
      apply W in B. assert (isWithinFov deltaAzDeg hfovDeg = true) by (apply W; split; lra).
      congruence.
Qed.

(** X6: with a positive field of view and height and a pitch of zero, the
    estimated vertical field of view is positive and the horizon of the
    frame is drawn at half the height. *)
Theorem level_horizon_is_centred (input : RendererInput) :
  0 < hfovDeg input -> 0 < height input -> pitchDeg input == 0 ->
  0 < estimateVfovDeg (hfovDeg input) (width input) (height input)
  /\ horizonOf input == height input / 2.
Proof.
  intros Hf Hh Hp.
  assert (V : 0 < estimateVfovDeg (hfovDeg input) (width input) (height input)).
  { unfold estimateVfovDeg.
    assert (M : 0 < Qmax 1 (width input)) by (qminmax; lra).
    apply Qmult_lt_0_compat; [exact Hf|].
    apply Qlt_shift_div_l; [exact M | lra]. }
  split; [exact V|].
  unfold horizonOf. cbv zeta. revert V.
  generalize (estimateVfovDeg (hfovDeg input) (width input) (height input)).
  intros v V. unfold pitchToScreenY. cbv zeta.
  assert (Z0 : - pitchDeg input / v == 0) by (rewrite Hp; field; lra).
  rewrite Z0.
  assert (0 <= height input / 2) by (unfold Qdiv; change (/ 2) with (1 # 2); lra).
  assert (height input == 2 * (height input / 2)) by field.
  rewrite clamp_id; lra.
Qed.

(** The theorem for a field of view of 60 degrees on 800 pixels. *)
Lemma azimuthToScreenX_clamped_monotone_witness :
  0 < 60 /\ 0 <= 800 /\ -30 <= 30
  /\ azimuthToScreenX (-30) 60 800 <= azimuthToScreenX 30 60 800.
Proof.
  assert (A : 0 < 60) by qeval. assert (B : 0 <= 800) by qeval.
  assert (C : -30 <= 30) by qeval.
  split; [exact A|]. split; [exact B|]. split; [exact C|].
  pose proof (azimuthToScreenX_clamped_monotone 60 800 (-30) 30 A B C) as H.
  destruct H as (_ & H & _). exact H.
Defined.

(** The theorem for a target 80 degrees to the left of a 60 degree view. *)
Lemma offscreen_side_witness :
  0 <= 60 /\ isWithinFov (- (-80)) 60 = isWithinFov (-80) 60.
Proof.
  assert (A : 0 <= 60) by qeval.
  split; [exact A|].
  pose proof (offscreen_side (-80) 60 A) as H.
  destruct H as (_ & _ & H). exact H.
Defined.

(** The theorem on the crowded frame, whose pitch is zero. *)
Lemma level_horizon_is_centred_witness :
  0 < hfovDeg Sample.crowded /\ 0 < height Sample.crowded
  /\ pitchDeg Sample.crowded == 0
  /\ horizonOf Sample.crowded == height Sample.crowded / 2.
Proof.
  assert (A : 0 < hfovDeg Sample.crowded) by qeval.
  assert (B : 0 < height Sample.crowded) by qeval.
  assert (C : pitchDeg Sample.crowded == 0) by qeval.
  split; [exact A|]. split; [exact B|]. split; [exact C|].
  pose proof (level_horizon_is_centred Sample.crowded A B C) as H.
  destruct H as (_ & H). exact H.
Defined.

End ProjectionExtras.

(** ** sensors.ts *)

Module SensorsExtras.
Import Js Geo Sensors SensorsSpec GeoFacts ProjectionFacts SensorsFacts.

Lemma emit_normalized (h : Host) (now : Q) (e : Engine) :
  normalized e -> normalized (emit h now e).
Proof.
  intros (Y & L & D & M). unfold emit, normalized. cbv zeta. simpl.
  assert (S : isHeading (smoothAngle h (headingDeg (lastEmit e))
                           (wrap360 (yaw e + headingOffsetDeg e)) (smoothing e)))
    by (unfold smoothAngle; cbv zeta; apply wrap360_le_360).
  split; [exact Y|]. split; [exact S|]. split; [|exact M].
  apply Forall_app. split; [exact D|]. constructor; [exact S | constructor].
Qed.

Lemma set_attitude_normalized (y p r : Q) (e : Engine) :
  isHeading y -> normalized e -> normalized (set_attitude y p r e).
Proof.
  intros Hy (_ & L & D & M). split; [exact Hy|]. split; [exact L|].
  split; [exact D | exact M].
Qed.

Lemma dispatch_normalized (h : Host) (e : Engine) (ev : Event) :
  normalized e -> normalized (dispatch h e ev).
Proof.
  intros N. pose proof N as (Y & L & D & M).
  destruct ev as [now q|c a|now rr ag| |px py| |now px py|now]; simpl.
  - destruct (genericSensor e); [|exact N].
    unfold onreading. destruct q as [[[[q0 q1] q2] q3]|]; [|exact N].
    destruct (quatToEuler h q0 q1 q2 q3) as [[z y] x].
    apply emit_normalized, set_attitude_normalized; [apply wrap360_le_360 | exact N].
  - destruct (fusionOn e); [|exact N].
    unfold onDO.
    destruct c as [c|]; [|destruct a as [a|]; [|exact N]].
    + split; [exact Y|]. split; [exact L|]. split; [exact D|].
      intros m [= <-]. apply wrap360_le_360.
    + split; [exact Y|]. split; [exact L|]. split; [exact D|].
      intros m [= <-]. apply wrap360_le_360.
  - destruct (fusionOn e); [|exact N].
    unfold onDM. cbv zeta.
    assert (N' : normalized (set_lastGyroTs now e))
      by (split; [exact Y|]; split; [exact L|]; split; [exact D | exact M]).
    destruct rr as [[[ra rb] rg]|], ag as [[[gx gy] gz]|], (headingMeas e) as [m|];
      apply emit_normalized, set_attitude_normalized;
      try apply wrap360_le_360; try exact Y; exact N'.
  - destruct (timeout e); [|exact N].
    unfold onTimeout. simpl.
    destruct (Qeq_bool (lastGyroTs e) 0 && _); exact N.
  - destruct (virt e); exact N.
  - destruct (virt e); exact N.
  - destruct (virt e) as [d|]; [|exact N].
    unfold onMove. destruct (dragging d); [|exact N].
    apply emit_normalized, set_attitude_normalized; [apply wrap360_le_360 | exact N].
  - destruct (rafOn e); [|exact N]. apply emit_normalized. exact N.
Qed.

(** X7: however the engine was started and whatever events it has
    handled, its yaw, the heading of its last sample, the heading of every
    sample it has delivered and its stored heading measurement all lie in
    [0, 360]. *)
Theorem headings_always_normalized (h : Host) (probe : SensorProbe) (now : Q)
    (options : OrientationOptions) (evs : list Event) :
  let e := run h (startOrientation probe now options) evs in
  (0 <= yaw e /\ yaw e <= 360)
  /\ (0 <= headingDeg (lastEmit e) /\ headingDeg (lastEmit e) <= 360)
  /\ Forall (fun s => 0 <= headingDeg s /\ headingDeg s <= 360) (delivered e)
  /\ (forall m, headingMeas e = Some m -> 0 <= m /\ m <= 360).
Proof.
  assert (S : normalized (startOrientation probe now options)).
  { assert (Z : isHeading 0) by (split; lra).
    destruct probe; (split; [exact Z|]; split; [exact Z|];
                     split; [constructor | discriminate]). }
  revert S. generalize (startOrientation probe now options). unfold run.
  induction evs as [|ev evs IH]; intros e N; simpl.
  - exact N.
  - apply IH. apply dispatch_normalized. exact N.
Qed.

(** X8: after [stop()] no host event changes the engine: nothing more is
    delivered and the source stays what it was. *)
Theorem stop_silences_engine (h : Host) (e : Engine) (evs : list Event) :
  run h (stop e) evs = stop e
  /\ delivered (run h (stop e) evs) = delivered e
  /\ src (stop e) = src e.
Proof.
  assert (R : run h (stop e) evs = stop e).
  { unfold run. induction evs as [|ev evs IH]; simpl; [reflexivity|].
    destruct ev; simpl; exact IH. }
  rewrite R. repeat split.
Qed.

Lemma dispatch_onGenericSensor (h : Host) (e : Engine) (ev : Event) :
  onGenericSensor e -> onGenericSensor (dispatch h e ev).
Proof.
  intros G. pose proof G as (S & T & V & F).
  destruct ev as [now q|c a|now rr ag| |px py| |now px py|now]; simpl;
    rewrite ?T, ?V, ?F; try exact G.
  - destruct (genericSensor e); [|exact G].
    unfold onreading. destruct q as [[[[q0 q1] q2] q3]|]; [|exact G].
    destruct (quatToEuler h q0 q1 q2 q3) as [[z y] x]. exact G.
  - destruct (rafOn e); exact G.
Qed.

(** X9: when the generic sensor was started, the source is
    [generic-sensor] after any sequence of events: no timer is pending, the
    device listeners are not registered and the virtual source never starts. *)
Theorem generic_sensor_is_terminal (h : Host) (now : Q) (options : OrientationOptions)
    (evs : list Event) :
  let e := run h (startOrientation SensorStarted now options) evs in
  src e = generic_sensor /\ timeout e = None /\ virt e = None /\ fusionOn e = false.
Proof.
  assert (S : onGenericSensor (startOrientation SensorStarted now options))
    by (repeat split).
  revert S. generalize (startOrientation SensorStarted now options). unfold run.
  induction evs as [|ev evs IH]; intros e G; simpl; [exact G|].
  apply IH, dispatch_onGenericSensor, G.
Qed.

Lemma dispatch_src (h : Host) (e : Engine) (ev : Event) :
  src (dispatch h e ev) = src e
  \/ (ev = TimerFired /\ timeout e <> None /\ src (dispatch h e ev) = virtual).
Proof.
  destruct ev as [now q|c a|now rr ag| |px py| |now px py|now]; simpl.
  - destruct (genericSensor e); [|left; reflexivity].
    unfold onreading. destruct q as [[[[q0 q1] q2] q3]|]; [|left; reflexivity].
    destruct (quatToEuler h q0 q1 q2 q3) as [[z y] x]. left. reflexivity.
  - destruct (fusionOn e); [|left; reflexivity].
    unfold onDO. destruct c; [left; reflexivity|]. destruct a; left; reflexivity.
  - destruct (fusionOn e); [|left; reflexivity].
    unfold onDM. cbv zeta.
    destruct rr as [[[ra rb] rg]|], ag as [[[gx gy] gz]|], (headingMeas e);
      left; reflexivity.
  - destruct (timeout e) eqn:T; [|left; reflexivity].
    unfold onTimeout. simpl.
    destruct (Qeq_bool (lastGyroTs e) 0 && _); [|left; reflexivity].
    right. repeat split. discriminate.
  - destruct (virt e); left; reflexivity.
  - destruct (virt e); left; reflexivity.
  - destruct (virt e) as [d|]; [|left; reflexivity].
    unfold onMove. destruct (dragging d); left; reflexivity.
  - destruct (rafOn e); left; reflexivity.
Qed.

(** X10: events change the source only to [virtual]: after any sequence
    of events the source is the one before or [virtual]; once [virtual] it
    stays [virtual]; without a pending timer it never changes; and the timer
    is no longer pending after it has fired. *)
Theorem source_only_falls_back_to_virtual (h : Host) (e : Engine) (evs : list Event) :
  (src (run h e evs) = src e \/ src (run h e evs) = virtual)
  /\ (src e = virtual -> src (run h e evs) = virtual)
  /\ (timeout e = None -> src (run h e evs) = src e)
  /\ timeout (dispatch h e TimerFired) = None.
Proof.
  assert (A : forall evs e, src (run h e evs) = src e \/ src (run h e evs) = virtual).
  { clear. unfold run. intros evs. induction evs as [|ev evs IH]; intros e; simpl.
    - left. reflexivity.
    - destruct (IH (dispatch h e ev)) as [E|E]; [|right; exact E].
      rewrite E. destruct (dispatch_src h e ev) as [D|(_ & _ & D)]; auto. }
  assert (T : forall e ev, timeout e = None -> timeout (dispatch h e ev) = None).
  { clear. intros e ev T.
    destruct ev as [now q|c a|now rr ag| |px py| |now px py|now]; simpl.
    - destruct (genericSensor e); [|exact T].
      unfold onreading. destruct q as [[[[q0 q1] q2] q3]|]; [|exact T].
      destruct (quatToEuler h q0 q1 q2 q3) as [[z y] x]. exact T.
    - destruct (fusionOn e); [|exact T].
      unfold onDO. destruct c; [exact T|]. destruct a; exact T.
    - destruct (fusionOn e); [|exact T].
      unfold onDM. cbv zeta.
      destruct rr as [[[ra rb] rg]|], ag as [[[gx gy] gz]|], (headingMeas e); exact T.
    - rewrite T. exact T.
    - destruct (virt e); exact T.
    - destruct (virt e); exact T.
    - destruct (virt e) as [d|]; [|exact T].
      unfold onMove. destruct (dragging d); exact T.
    - destruct (rafOn e); exact T. }
  split; [apply A|]. split; [|split].
  - intros V. destruct (A evs e) as [E|E]; congruence.
  - revert e. unfold run. induction evs as [|ev evs IH]; intros e0 Tn; simpl; [reflexivity|].
    rewrite (IH (dispatch h e0 ev) (T e0 ev Tn)).
    destruct (dispatch_src h e0 ev) as [D|(_ & N & _)]; [exact D | congruence].
  - simpl. destruct (timeout e) eqn:Tm; [|exact Tm].
    unfold onTimeout. simpl. destruct (Qeq_bool (lastGyroTs e) 0 && _); reflexivity.
Qed.

Lemma dispatch_fusing (h : Host) (e : Engine) (ev : Event) :
  isTimer ev = false -> fusing e -> fusing (dispatch h e ev).
Proof.
  intros NT G. pose proof G as (F & V & S).
  destruct ev as [now q|c a|now rr ag| |px py| |now px py|now]; simpl;
    rewrite ?F, ?V; try exact G; try discriminate.
  - destruct (genericSensor e); [|exact G].
    unfold onreading. destruct q as [[[[q0 q1] q2] q3]|]; [|exact G].
    destruct (quatToEuler h q0 q1 q2 q3) as [[z y] x]. exact G.
  - unfold onDO. destruct c; [exact G|]. destruct a; exact G.
  - unfold onDM. cbv zeta.
    destruct rr as [[[ra rb] rg]|], ag as [[[gx gy] gz]|], (headingMeas e); exact G.
  - destruct (rafOn e); exact G.
Qed.

Lemma dispatch_measured (h : Host) (e : Engine) (ev : Event) :
  measured e -> measured (dispatch h e ev).
Proof.
  intros G. pose proof G as ([m M] & V & S).
  destruct ev as [now q|c a|now rr ag| |px py| |now px py|now]; simpl;
    rewrite ?V; try exact G.
  - destruct (genericSensor e); [|exact G].
    unfold onreading. destruct q as [[[[q0 q1] q2] q3]|]; [|exact G].
    destruct (quatToEuler h q0 q1 q2 q3) as [[z y] x].
    split; [exists m; exact M | split; [exact V | exact S]].
  - destruct (fusionOn e); [|exact G].
    unfold onDO. destruct c as [c|]; [|destruct a as [a|]; [|exact G]].
    + split; [eexists; reflexivity | split; [exact V | exact S]].
    + split; [eexists; reflexivity | split; [exact V | exact S]].
  - destruct (fusionOn e); [|exact G].
    unfold onDM. cbv zeta.
    destruct rr as [[[ra rb] rg]|], ag as [[[gx gy] gz]|]; rewrite M;
      (split; [exists m; exact M | split; [exact V | exact S]]).
  - destruct (timeout e); [|exact G].
    unfold onTimeout. simpl. rewrite M, andb_false_r.
    split; [exists m; exact M | split; [reflexivity | exact S]].
  - destruct (rafOn e); [|exact G].
    split; [exists m; exact M | split; [exact V | exact S]].
Qed.

Lemma run_fusing (h : Host) (evs : list Event) (e : Engine) :
  Forall (fun ev => isTimer ev = false) evs -> fusing e -> fusing (run h e evs).
Proof.
  intros F. revert e. unfold run.
  induction F as [|ev evs NT _ IH]; intros e G; simpl; [exact G|].
  apply IH, dispatch_fusing; assumption.
Qed.

Lemma run_measured (h : Host) (evs : list Event) (e : Engine) :
  measured e -> measured (run h e evs).
Proof.
  revert e. unfold run. induction evs as [|ev evs IH]; intros e M; simpl; [exact M|].
  apply IH, dispatch_measured, M.
Qed.

(** X11: on the device-fusion path, once a device-orientation event with a
    numeric heading has arrived before the timer fired, the engine never
    falls back to the virtual source, whatever follows. *)
Theorem heading_measurement_keeps_fusion (h : Host) (probe : SensorProbe) (now0 : Q)
    (options : OrientationOptions) (pre post : list Event)
    (webkitCompassHeading alpha : option Q) :
  probe <> SensorStarted ->
  Forall (fun ev => isTimer ev = false) pre ->
  (webkitCompassHeading <> None \/ alpha <> None) ->
  let e := run h (startOrientation probe now0 options)
             (pre ++ DeviceOrientation webkitCompassHeading alpha :: post) in
  src e = deviceorientation_motion /\ virt e = None
  /\ exists m, headingMeas e = Some m.
Proof.
  intros Hp Hpre Hm e.
  assert (F0 : fusing (startOrientation probe now0 options))
    by (destruct probe; try congruence; repeat split).
  pose proof (run_fusing h pre _ Hpre F0) as F1.
  assert (M1 : measured (dispatch h (run h (startOrientation probe now0 options) pre)
                           (DeviceOrientation webkitCompassHeading alpha))).
  { destruct F1 as (F & V & S). simpl. rewrite F. unfold onDO.
    destruct webkitCompassHeading as [c|];
      [|destruct alpha as [a|]; [|destruct Hm; congruence]].
    - split; [eexists; reflexivity | split; [exact V | exact S]].
    - split; [eexists; reflexivity | split; [exact V | exact S]]. }
  assert (E : e = run h (dispatch h (run h (startOrientation probe now0 options) pre)
                           (DeviceOrientation webkitCompassHeading alpha)) post).
  { unfold e, run. rewrite foldl_app. reflexivity. }
  destruct (run_measured h post _ M1) as (M & V & S). rewrite <- E in M, V, S.
  split; [exact S|]. split; [exact V | exact M].
Qed.

(** X12: [setSmoothing] stores its argument clamped to [0, 0.3] and changes
    nothing else. *)
Theorem setSmoothing_clamps (v : Q) (e : Engine) :
  (0 <= smoothing (setSmoothing v e) /\ smoothing (setSmoothing v e) <= 0.3)
  /\ (0 <= v -> v <= 0.3 -> smoothing (setSmoothing v e) == v)
  /\ (v <= 0 -> smoothing (setSmoothing v e) == 0)
  /\ (0.3 <= v -> smoothing (setSmoothing v e) == 0.3)
  /\ set_smoothing (smoothing e) (setSmoothing v e) = set_smoothing (smoothing e) e.
Proof.
  unfold setSmoothing. simpl.
  split; [split; qminmax; lra|].
  split; [intros; qminmax; lra|].
  split; [intros; qminmax; lra|].
  split; [intros; qminmax; lra|].
  reflexivity.
Qed.

(** X13: with a smoothing of exactly 0 the blend factor [1 - exp(-0)] is 0,
    so [emit] publishes the previous heading, pitch and roll again: the
    output does not follow the filter. *)
Theorem zero_smoothing_freezes_output (h : Host) (now : Q) (e : Engine) :
  Math_exp h 0 == 1 -> smoothing e = 0 ->
  0 <= headingDeg (lastEmit e) -> headingDeg (lastEmit e) < 360 ->
  headingDeg (lastEmit (emit h now e)) == headingDeg (lastEmit e)
  /\ pitchDeg (lastEmit (emit h now e)) == pitchDeg (lastEmit e)
  /\ rollDeg (lastEmit (emit h now e)) == rollDeg (lastEmit e).
Proof.
  intros He Hs L U. unfold emit. cbv zeta. simpl.
  unfold smoothAngle, smoothLinear. cbv zeta. rewrite Hs.
  change (- 0) with 0.
  split; [|split].
  - apply (wrap360_unique _ _ 0); try assumption.
    change (inject_Z 0) with 0. rewrite He. lra.
  - rewrite He. lra.
  - rewrite He. lra.
Qed.


(** The theorem when a compass heading arrives after one animation frame. *)
Lemma heading_measurement_keeps_fusion_witness :
  CtorMissing <> SensorStarted
  /\ Forall (fun ev => isTimer ev = false) [AnimationFrame 16]
  /\ (Some 90 <> None \/ @None Q <> None)
  /\ src (run Sample.host (startOrientation CtorMissing 0 Sample.options)
            ([AnimationFrame 16] ++ DeviceOrientation (Some 90) None :: [TimerFired]))
     = deviceorientation_motion.
Proof.
  assert (A : CtorMissing <> SensorStarted) by discriminate.
  assert (B : Forall (fun ev => isTimer ev = false) [AnimationFrame 16])
    by (repeat constructor).
  assert (C : Some 90 <> None \/ @None Q <> None) by (left; discriminate).
  split; [exact A|]. split; [exact B|]. split; [exact C|].
  pose proof (heading_measurement_keeps_fusion Sample.host CtorMissing 0 Sample.options
                [AnimationFrame 16] [TimerFired] (Some 90) None A B C) as H.
  cbv zeta in H. destruct H as (H & _). exact H.
Defined.

(** The theorem for an engine started with a smoothing of 0. *)
Lemma zero_smoothing_freezes_output_witness :
  let e := startOrientation CtorMissing 0
             {| opt_smoothing := 0; opt_headingOffsetDeg := 0 |} in
  Math_exp Sample.host 0 == 1 /\ smoothing e = 0
  /\ 0 <= headingDeg (lastEmit e) /\ headingDeg (lastEmit e) < 360
  /\ headingDeg (lastEmit (emit Sample.host 16 e)) == headingDeg (lastEmit e).
Proof.
  intros e.
  assert (A : Math_exp Sample.host 0 == 1) by qeval.
  assert (B : smoothing e = 0) by reflexivity.
  assert (C : 0 <= headingDeg (lastEmit e)) by qeval.
  assert (D : headingDeg (lastEmit e) < 360) by qeval.
  split; [exact A|]. split; [exact B|]. split; [exact C|]. split; [exact D|].
  pose proof (zero_smoothing_freezes_output Sample.host 16 e A B C D) as H.
  destruct H as (H & _). exact H.
Defined.


End SensorsExtras.

(** ** renderer.ts *)

Module RendererExtras.
Import Js Geo Projection Renderer RendererSpec GeoFacts ProjectionFacts RendererFacts.

(** *** Sorting by population *)

Lemma insertByPopulation_perm (a : Candidate) (l : list Candidate) :
  Permutation (insertByPopulation a l) (a :: l).
Proof.
  induction l as [|b l IH]; simpl; [reflexivity|].
  destruct (ltb _ _); [|reflexivity].
  rewrite IH. apply perm_swap.
Qed.

Lemma insertByPopulation_sorted (a : Candidate) (l : list Candidate) :
  StronglySorted byPopulation l -> StronglySorted byPopulation (insertByPopulation a l).
Proof.
  induction 1 as [|b l S IH F]; simpl.
  - repeat constructor.
  - destruct (ltb (population (c a)) (population (c b))) eqn:E.
    + constructor; [exact IH|].
      rewrite Forall_forall. intros d Hd.
      apply list_elem_of_In, insertByPopulation_In in Hd.
      destruct Hd as [->|Hd].
      * unfold byPopulation. unfold ltb in E. apply negb_true_iff in E.
        apply Qlt_le_weak, Qnot_le_lt. intros H. apply Qle_bool_iff in H. congruence.
      * rewrite Forall_forall in F. apply F, list_elem_of_In, Hd.
    + assert (Hab : byPopulation a b).
      { unfold byPopulation. unfold ltb in E. apply negb_false_iff in E.
        apply Qle_bool_iff. exact E. }
      constructor; [constructor; assumption|].
      constructor; [exact Hab|].
      rewrite Forall_forall in *. intros d Hd. unfold byPopulation in *.
      apply Qle_trans with (population (c b)); [apply F, Hd | exact Hab].
Qed.

Lemma insertByPopulation_stable (p : Q) (a : Candidate) (l : list Candidate) :
  withPopulation p (insertByPopulation a l) = withPopulation p (a :: l).
Proof.
  unfold withPopulation. induction l as [|b l IH]; simpl; [reflexivity|].
  destruct (ltb (population (c a)) (population (c b))) eqn:E; [|reflexivity].
  simpl. rewrite IH. simpl.
  destruct (Qeq_bool (population (c a)) p) eqn:A; [|reflexivity].
  destruct (Qeq_bool (population (c b)) p) eqn:B; [|reflexivity].
  apply Qeq_bool_iff in A, B. unfold ltb in E. apply negb_true_iff in E.
  assert (H : Qle_bool (population (c b)) (population (c a)) = true)
    by (apply Qle_bool_iff; rewrite A, B; apply Qle_refl).
  congruence.
Qed.

Lemma sortByPopulation_perm (l : list Candidate) :
  Permutation (sortByPopulation l) l.
Proof.
  unfold sortByPopulation. induction l as [|a l IH]; simpl; [reflexivity|].
  rewrite insertByPopulation_perm, IH. reflexivity.
Qed.

Lemma sortByPopulation_sorted (l : list Candidate) :
  StronglySorted byPopulation (sortByPopulation l).
Proof.
  unfold sortByPopulation. induction l as [|a l IH]; simpl; [constructor|].
  apply insertByPopulation_sorted, IH.
Qed.

(** X16: sorting the candidates keeps exactly the same candidates, puts
    larger populations first, and keeps candidates of equal population in
    the order they had. *)
Theorem sortByPopulation_stable_sort (l : list Candidate) :
  Permutation (sortByPopulation l) l
  /\ StronglySorted byPopulation (sortByPopulation l)
  /\ (forall p, withPopulation p (sortByPopulation l) = withPopulation p l)
  /\ length (sortByPopulation l) = length l.
Proof.
  split; [apply sortByPopulation_perm|]. split; [|split].
  - apply sortByPopulation_sorted.
  - intros p. unfold sortByPopulation. induction l as [|a l IH]; simpl; [reflexivity|].
    rewrite insertByPopulation_stable. unfold withPopulation in *. simpl.
    rewrite IH. reflexivity.
  - apply Permutation_length, sortByPopulation_perm.
Qed.

(** *** The candidates of a frame *)

(** X17: the candidates of a frame are exactly the cities whose distance is
    at most [maxDistanceKm], ordered by population, largest first; each has
    a bearing in [0, 360] and an azimuth delta in [-180, 180); there are no
    more candidates than cities. *)
Theorem candidates_in_range_by_population (host : Host) (input : RendererInput) :
  (forall item, In item (buildCandidates host input)
     <-> exists c0, In c0 (cities input) /\ item = candidateOf host input c0
                    /\ distKm item <= maxDistanceKm input)
  /\ StronglySorted byPopulation (buildCandidates host input)
  /\ (forall item, In item (buildCandidates host input) ->
        (0 <= bearing item /\ bearing item <= 360)
        /\ -180 <= wrap180 (bearing item - headingDeg input)
        /\ wrap180 (bearing item - headingDeg input) < 180)
  /\ (length (buildCandidates host input) <= length (cities input))%nat.
Proof.
  split; [intros item; apply buildCandidates_in_range|].
  split; [|split].
  - unfold buildCandidates. cbv zeta. apply sortByPopulation_sorted.
  - intros item Hin. apply buildCandidates_in_range in Hin.
    destruct Hin as (c0 & _ & -> & _). split; [|apply wrap180_range].
    simpl. unfold initialBearingDeg. cbv zeta. apply wrap360_le_360.
  - unfold buildCandidates. cbv zeta.
    rewrite (Permutation_length (sortByPopulation_perm _)).
    etransitivity; [apply length_filter|]. rewrite length_map. reflexivity.
Qed.

(** *** How many rectangles a frame places *)

Lemma outcome_rectCount (host : Host) (input : RendererInput) (la : gmap string Q)
    (st st' : Layout) (item : Candidate) :
  Outcome host input la st item st' ->
  (rectCount st' <= S (rectCount st))%nat
  /\ (length (placed st') <= S (length (placed st)))%nat.
Proof.
  intros O. unfold rectCount.
  destruct O as [_ _ ->|y0 _ _ E1 E2 E3 _ _|_ E1 E2 E3 _ _
                |y0 _ _ _ E1 E2 E3 _|y0 _ _ _ E1 E2 E3 _];
    rewrite ?E1, ?E2, ?E3, ?length_app; simpl; lia.
Qed.

Lemma layoutFrom_rectCount (host : Host) (input : RendererInput) (la : gmap string Q)
    (items : list Candidate) (st : Layout) :
  (rectCount (layoutFrom host input la st items) <= rectCount st + length items)%nat
  /\ (length (placed (layoutFrom host input la st items))
      <= length (placed st) + length items)%nat.
Proof.
  unfold layoutFrom. revert st. induction items as [|item items IH]; intros st; simpl.
  - lia.
  - destruct (IH (renderItem host input (horizonOf input) la st item)) as [A B].
    destruct (outcome_rectCount _ _ _ _ _ _ (renderItem_outcome host input la st item))
      as [A' B'].
    lia.
Qed.

(** X18: every key of a frame's visible-target set is the key of a city
    within [maxDistanceKm]; the frame places at most one rectangle per
    candidate, so [visibleCount] is at most the number of candidates; and
    with no cities nothing is placed, drawn or targeted. *)
Theorem out_of_range_cities_are_ignored (host : Host) (input : RendererInput)
    (now : Q) (fs : FrameState) :
  let st := layoutFrame host input (labelAlpha fs) in
  (forall k, k ∈ visibleKeys st ->
     exists c0, In c0 (cities input) /\ keyOf c0 = k
       /\ haversineDistanceKm host (ll_lat (user input)) (ll_lon (user input))
            (lat c0) (lon c0) <= maxDistanceKm input)
  /\ (rectCount st <= length (buildCandidates host input))%nat
  /\ (visibleCount (fst (fst (render host input now fs)))
      <= length (buildCandidates host input))%nat
  /\ (cities input = [] ->
        visibleCount (fst (fst (render host input now fs))) = 0%nat
        /\ snd (fst (render host input now fs)) = []
        /\ visibleKeys st = ∅).
Proof.
  intros st. split; [|split; [|split]].
  - intros k Hk. unfold st, layoutFrame in Hk.
    apply layoutFrom_keys_origin in Hk. destruct Hk as [Hk|(item & Hin & Hkey)].
    + simpl in Hk. apply not_elem_of_empty in Hk. destruct Hk.
    + apply buildCandidates_in_range in Hin. destruct Hin as (c0 & Hc & -> & Hd).
      exists c0. auto.
  - unfold st, layoutFrame.
    apply (proj1 (layoutFrom_rectCount host input (labelAlpha fs) _ emptyLayout)).
  - unfold render. simpl. unfold layoutFrame.
    apply (proj2 (layoutFrom_rectCount host input (labelAlpha fs) _ emptyLayout)).
  - intros E. unfold st, render, layoutFrame, buildCandidates. rewrite E. repeat split.
Qed.

(** *** Placement does not read the fade table *)

Lemma outcome_alpha_irrelevant (host : Host) (input : RendererInput)
    (la1 la2 : gmap string Q) (s1 s1' s2 s2' : Layout) (item : Candidate) :
  Outcome host input la1 s1 item s1' ->
  Outcome host input la2 s2 item s2' ->
  placed s1 = placed s2 -> visibleKeys s1 = visibleKeys s2 ->
  placed s1' = placed s2' /\ visibleKeys s1' = visibleKeys s2'.
Proof.
  intros O1 O2 P K.
  destruct O1 as [Off1 S1 ->|y1 Off1 S1 P1 _ _ K1 _|Off1 P1 _ _ K1 _
                 |y1 Off1 _ _ P1 _ _ K1|y1 Off1 _ _ P1 _ _ K1];
  destruct O2 as [Off2 S2 ->|y2 Off2 S2 P2 _ _ K2 _|Off2 P2 _ _ K2 _
                 |y2 Off2 _ _ P2 _ _ K2|y2 Off2 _ _ P2 _ _ K2];
  try congruence;
  try (rewrite <- P in S2);
  try congruence;
  split; congruence.
Qed.

(** X19: the on-screen rectangles, the visible-target set and the
    [visibleCount] of a frame do not depend on the fade table or on the
    frame's time: they are determined by the input alone. *)
Theorem placement_ignores_fade_table (host : Host) (input : RendererInput)
    (la1 la2 : gmap string Q) (now1 now2 : Q) (last1 last2 : Q) :
  placed (layoutFrame host input la1) = placed (layoutFrame host input la2)
  /\ visibleKeys (layoutFrame host input la1) = visibleKeys (layoutFrame host input la2)
  /\ fst (fst (render host input now1 {| labelAlpha := la1; lastNow := last1 |}))
     = fst (fst (render host input now2 {| labelAlpha := la2; lastNow := last2 |})).
Proof.
  assert (G : forall items s1 s2,
            placed s1 = placed s2 -> visibleKeys s1 = visibleKeys s2 ->
            placed (layoutFrom host input la1 s1 items)
            = placed (layoutFrom host input la2 s2 items)
            /\ visibleKeys (layoutFrom host input la1 s1 items)
               = visibleKeys (layoutFrom host input la2 s2 items)).
  { unfold layoutFrom. induction items as [|item items IH]; intros s1 s2 P K; simpl; [auto|].
    apply IH;
      apply (outcome_alpha_irrelevant host input la1 la2 s1 _ s2 _ item
               (renderItem_outcome host input la1 s1 item)
               (renderItem_outcome host input la2 s2 item) P K). }
  destruct (G (buildCandidates host input) emptyLayout emptyLayout eq_refl eq_refl)
    as [P K].
  split; [exact P|]. split; [exact K|].
  unfold render. simpl. unfold layoutFrame in P. unfold layoutFrame. rewrite P.
  reflexivity.
Qed.

(** *** The vertical search *)

Lemma rectsOverlap_comp (p r : Rect) (y1 y2 : Q) :
  y1 == y2 -> rectsOverlap p (withY r y1) = rectsOverlap p (withY r y2).
Proof.
  intros E. unfold rectsOverlap, ltb, withY. simpl.
  rewrite (Qleb_comp _ _ E _ _ (Qeq_refl (y p + h p))).
  assert (E' : y1 + h r == y2 + h r) by (rewrite E; reflexivity).
  rewrite (Qleb_comp _ _ (Qeq_refl (y p)) _ _ E').
  reflexivity.
Qed.

Lemma overlapsPool_comp (pool : list Rect) (r : Rect) (y1 y2 : Q) :
  y1 == y2 -> overlapsPool pool (withY r y1) = overlapsPool pool (withY r y2).
Proof.
  intros E. unfold overlapsPool. induction pool as [|p pool IH]; simpl; [reflexivity|].
  rewrite IH, (rectsOverlap_comp p r y1 y2 E). reflexivity.
Qed.

Lemma searchY_exhausted (rect : Rect) (pool : list Rect) (height : Q)
    (candidates tried : list Q) :
  (forall t, In t tried -> overlapsPool pool (withY rect t) = true) ->
  searchY rect pool height candidates tried = None ->
  forall v, In v candidates ->
    overlapsPool pool (withY rect (Qmax 0 (Qmin (height - h rect) v))) = true.
Proof.
  revert tried. induction candidates as [|v0 rest IH]; intros tried Ht S v Hv.
  - destruct Hv.
  - simpl in S.
    fold (withY rect (Qmax 0 (Qmin (height - h rect) v0))) in S.
    fold (overlapsPool pool (withY rect (Qmax 0 (Qmin (height - h rect) v0)))) in S.
    destruct (existsb (Qeq_bool (Qmax 0 (Qmin (height - h rect) v0))) tried) eqn:T.
    + destruct Hv as [<-|Hv]; [|apply (IH tried Ht S v Hv)].
      apply existsb_exists in T. destruct T as (t & Hin & Heq).
      apply Qeq_bool_iff in Heq.
      rewrite (overlapsPool_comp pool rect _ _ Heq). apply Ht, Hin.
    + destruct (overlapsPool pool (withY rect (Qmax 0 (Qmin (height - h rect) v0))))
        eqn:O; simpl in S; [|discriminate].
      destruct Hv as [<-|Hv]; [exact O|].
      apply (IH (Qmax 0 (Qmin (height - h rect) v0) :: tried)); [|exact S|exact Hv].
      intros t [<-|Hin]; [exact O | apply Ht, Hin].
Qed.

Lemma stepsUpTo_In (maxSteps : Z) (i : nat) :
  (1 <= i)%nat -> (i <= Z.to_nat maxSteps)%nat ->
  In (inject_Z (Z.of_nat i)) (stepsUpTo maxSteps).
Proof.
  intros L U. unfold stepsUpTo. apply in_map_iff. exists i. split; [reflexivity|].
  apply in_seq. lia.
Qed.

Lemma searchY_origin (rect : Rect) (pool : list Rect) (height : Q)
    (candidates tried : list Q) (y0 : Q) :
  searchY rect pool height candidates tried = Some y0 ->
  exists v, In v candidates /\ y0 = Qmax 0 (Qmin (height - h rect) v).
Proof.
  revert tried. induction candidates as [|v rest IH]; intros tried; simpl.
  - discriminate.
  - destruct (existsb _ tried).
    + intros S. destruct (IH _ S) as (v' & Hin & E). eauto.
    + destruct (existsb _ pool); simpl.
      * intros S. destruct (IH _ S) as (v' & Hin & E). eauto.
      * intros [= <-]. eauto.
Qed.

(** X20: the vertical search returns the clamped starting position
    whenever that position overlaps nothing in the pool, in particular for
    an empty pool; any position it returns overlaps nothing in the pool and
    is the clamped position some whole number of steps, at most [maxSteps],
    above or below the start. *)
Theorem findNonOverlappingY_tries_anchor_first (rect : Rect) (pool : list Rect)
    (height : Q) (maxSteps : Z) :
  (overlapsPool pool (withY rect (anchorY rect height)) = false ->
     findNonOverlappingY rect pool height maxSteps = Some (anchorY rect height))
  /\ findNonOverlappingY rect [] height maxSteps = Some (anchorY rect height)
  /\ (forall y0, findNonOverlappingY rect pool height maxSteps = Some y0 ->
        overlapsPool pool (withY rect y0) = false
        /\ exists i : Z, (Z.abs i <= Z.max 0 maxSteps)%Z /\ y0 == probeY rect height i).
Proof.
  split; [|split].
  - intros Free. unfold findNonOverlappingY. cbv zeta. simpl.
    fold (anchorY rect height). fold (withY rect (anchorY rect height)).
    fold (overlapsPool pool (withY rect (anchorY rect height))).
    rewrite Free. reflexivity.
  - reflexivity.
  - intros y0 S. split.
    + destruct (findNonOverlappingY_sound _ _ _ _ _ S) as [D _].
      unfold overlapsPool. destruct (existsb _ pool) eqn:E; [|reflexivity].
      apply existsb_exists in E. destruct E as (p & Hp & O).
      rewrite (D p Hp) in O. discriminate.
    + unfold findNonOverlappingY in S. cbv zeta in S.
      destruct (searchY_origin _ _ _ _ _ _ S) as (v & Hin & ->).
      unfold stepsUpTo in Hin. rewrite !map_map in Hin. simpl in Hin.
      destruct Hin as [<-|Hin].
      * exists 0%Z. split; [lia|]. unfold probeY. change (inject_Z 0) with 0.
        generalize (Qmax 12 (h rect + 6)). intros s. qminmax; lra.
      * apply in_app_or in Hin. destruct Hin as [Hin|Hin];
          apply in_map_iff in Hin; destruct Hin as (i & <- & Hi); apply in_seq in Hi.
        -- exists (- Z.of_nat i)%Z. split; [lia|]. unfold probeY.
           rewrite inject_Z_opp.
           generalize (Qmax 12 (h rect + 6)) (inject_Z (Z.of_nat i)). intros s t.
           assert (E : y rect - t * s == y rect + - t * s) by ring.
           revert E. generalize (y rect - t * s) (y rect + - t * s). intros a b E.
           qminmax; lra.
        -- exists (Z.of_nat i). split; [lia|]. unfold probeY. reflexivity.
Qed.

(** X21: the vertical search returns no position only when every position
    it probes, from [maxSteps] steps above the start to [maxSteps] steps
    below, overlaps a rectangle of the pool. *)
Theorem findNonOverlappingY_gives_up_only_when_full (rect : Rect) (pool : list Rect)
    (height : Q) (maxSteps : Z) :
  findNonOverlappingY rect pool height maxSteps = None ->
  forall i : Z, (Z.abs i <= maxSteps)%Z ->
    overlapsPool pool (withY rect (probeY rect height i)) = true.
Proof.
  intros S i Hi. unfold findNonOverlappingY in S. cbv zeta in S.
  pose proof (searchY_exhausted rect pool height _ [] (fun t (H : In t []) => match H with end) S)
    as Full.
  simpl in Full. unfold probeY.
  destruct (Z.eq_dec i 0%Z) as [->|Hne].
  - assert (E : Qmax 0 (Qmin (height - h rect) (y rect + inject_Z 0 * Qmax 12 (h rect + 6)))
                == Qmax 0 (Qmin (height - h rect) (y rect))).
    { change (inject_Z 0) with 0.
      generalize (Qmax 12 (h rect + 6)). intros s. qminmax; lra. }
    rewrite (overlapsPool_comp pool rect _ _ E). apply Full. left. reflexivity.
  - destruct (Z_lt_le_dec i 0%Z) as [Hn|Hp].
    + assert (E : Qmax 0 (Qmin (height - h rect)
                            (y rect + inject_Z i * Qmax 12 (h rect + 6)))
                  == Qmax 0 (Qmin (height - h rect)
                               (y rect - inject_Z (Z.of_nat (Z.to_nat (- i)))
                                         * Qmax 12 (h rect + 6)))).
      { rewrite Z2Nat.id by lia. rewrite inject_Z_opp.
        generalize (Qmax 12 (h rect + 6)) (inject_Z i). intros s t.
        assert (E : y rect + t * s == y rect - - t * s) by ring.
        revert E. generalize (y rect + t * s) (y rect - - t * s). intros a b E.
        qminmax; lra. }
      rewrite (overlapsPool_comp pool rect _ _ E). apply Full.
      right. apply in_or_app. left.
      apply in_map_iff. exists (inject_Z (Z.of_nat (Z.to_nat (- i)))).
      split; [reflexivity|]. apply stepsUpTo_In; lia.
    + assert (E : inject_Z i = inject_Z (Z.of_nat (Z.to_nat i)))
        by (rewrite Z2Nat.id by lia; reflexivity).
      rewrite E. apply Full.
      right. apply in_or_app. right.
      apply in_map_iff. exists (inject_Z (Z.of_nat (Z.to_nat i))).
      split; [reflexivity|]. apply stepsUpTo_In; lia.
Qed.

(** *** What is drawn *)

Lemma renderItem_draws (host : Host) (input : RendererInput) (la : gmap string Q)
    (st : Layout) (item : Candidate) (d : Draw) :
  In d (draws (renderItem host input (horizonOf input) la st item)) ->
  In d (draws st)
  \/ (drawAlpha d = alphaOf la (keyOf (c item)) /\ 0.01 < drawAlpha d).
Proof.
  assert (A : forall a, leb a 0.01 = false -> 0.01 < a).
  { intros a E. apply Qnot_le_lt. intros H. apply Qle_bool_iff in H.
    unfold leb in E. congruence. }
  unfold renderItem. cbv zeta.
  change (measureLabel host (composeText host (units input) item))
    with (measureText_width host (composeText host (units input) item) + 12, 24).
  cbv iota beta. fold (alphaOf la (keyOf (c item))).
  destruct (negb (negb (isWithinFov _ _))).
  - destruct (findNonOverlappingY _ (placed st) _ _); [|auto]. simpl.
    destruct (leb (alphaOf la (keyOf (c item))) 0.01) eqn:E; [auto|].
    intros Hd. apply in_app_or in Hd. destruct Hd as [Hd|[<-|[]]]; [auto|].
    right. split; [reflexivity | apply A, E].
  - destruct (negb (showOffscreenIndicators input)); [auto|].
    destruct (leb (alphaOf la (keyOf (c item))) 0.01) eqn:E; [auto|].
    destruct (findNonOverlappingY _ _ _ _); [|auto]. simpl.
    intros Hd. apply in_app_or in Hd. destruct Hd as [Hd|[<-|[]]]; [auto|].
    right. split; [reflexivity | apply A, E].
Qed.

(** X22: every drawing instruction of a frame carries an alpha above 0.01
    that is the stored alpha of a candidate's key; when no stored alpha
    exceeds 0.01, in particular on the first frame with an empty table,
    nothing is drawn; there is at most one instruction per candidate. *)
Theorem only_faded_in_labels_are_drawn (host : Host) (input : RendererInput)
    (now : Q) (fs : FrameState) :
  let drawn := snd (fst (render host input now fs)) in
  (forall d, In d drawn ->
     0.01 < drawAlpha d
     /\ exists item, In item (buildCandidates host input)
          /\ drawAlpha d = alphaOf (labelAlpha fs) (keyOf (c item)))
  /\ ((forall k, alphaOf (labelAlpha fs) k <= 0.01) -> drawn = [])
  /\ (labelAlpha fs = ∅ -> drawn = [])
  /\ (length drawn <= length (buildCandidates host input))%nat.
Proof.
  intros drawn.
  assert (D : forall d, In d drawn ->
            0.01 < drawAlpha d
            /\ exists item, In item (buildCandidates host input)
                 /\ drawAlpha d = alphaOf (labelAlpha fs) (keyOf (c item))).
  { unfold drawn, render. simpl. unfold layoutFrame.
    apply (layoutFrom_ind host input (labelAlpha fs)
             (fun st => forall d, In d (draws st) ->
                0.01 < drawAlpha d
                /\ exists item, In item (buildCandidates host input)
                     /\ drawAlpha d = alphaOf (labelAlpha fs) (keyOf (c item)))).
    - intros st item Hin IH d Hd.
      apply renderItem_draws in Hd. destruct Hd as [Hd|[E L]]; [apply IH, Hd|].
      split; [exact L | eauto].
    - intros d []. }
  assert (N : (forall k, alphaOf (labelAlpha fs) k <= 0.01) -> drawn = []).
  { intros Low. destruct drawn as [|d rest] eqn:E; [reflexivity|].
    destruct (D d (or_introl eq_refl)) as (L & item & _ & Ed).
    specialize (Low (keyOf (c item))). rewrite <- Ed in Low. lra. }
  split; [exact D|]. split; [exact N|]. split.
  - intros Em. apply N. intros k. unfold alphaOf. rewrite Em, lookup_empty. simpl. lra.
  - unfold drawn, render. simpl. unfold layoutFrame.
    assert (G : forall items st,
              (length (draws (layoutFrom host input (labelAlpha fs) st items))
               <= length (draws st) + length items)%nat).
    { unfold layoutFrom. induction items as [|item items IH]; intros st; simpl; [lia|].
      specialize (IH (renderItem host input (horizonOf input) (labelAlpha fs) st item)).
      assert (S1 : (length (draws (renderItem host input (horizonOf input)
                                     (labelAlpha fs) st item))
                    <= S (length (draws st)))%nat).
      { unfold renderItem. cbv zeta.
        change (measureLabel host (composeText host (units input) item))
          with (measureText_width host (composeText host (units input) item) + 12, 24).
        cbv iota beta.
        destruct (negb (negb (isWithinFov _ _))).
        - destruct (findNonOverlappingY _ (placed st) _ _); [|lia]. simpl.
          destruct (leb _ 0.01); [lia|]. rewrite length_app. simpl. lia.
        - destruct (negb (showOffscreenIndicators input)); [simpl; lia|].
          destruct (leb _ 0.01); [simpl; lia|].
          destruct (findNonOverlappingY _ _ _ _); [|simpl; lia]. simpl.
          rewrite length_app. simpl. lia. }
      lia. }
    apply (G (buildCandidates host input) emptyLayout).
Qed.

(** *** The fade tracker over several frames *)

Lemma updateKey_lookup (T : gset string) (dt : Q) (k : string) (m : gmap string Q) :
  updateKey T dt k m !! k = storedAlpha (bool_decide (k ∈ T)) dt (alphaOf m k).
Proof.
  unfold updateKey, storedAlpha, alphaOf, faded, fadeInPerSec, fadeOutPerSec. cbv zeta.
  destruct (bool_decide (k ∈ T)); simpl.
  - rewrite andb_false_r. apply lookup_insert_eq.
  - rewrite andb_true_r.
    destruct (leb (Qmax 0 (nullish (m !! k) 0 - 3 * dt)) 0).
    + apply lookup_delete_eq.
    + apply lookup_insert_eq.
Qed.

Lemma fold_updateKey_lookup (T : gset string) (dt : Q) (m : gmap string Q)
    (l : list string) :
  NoDup l ->
  forall k, k ∈ l ->
    foldr (updateKey T dt) m l !! k = storedAlpha (bool_decide (k ∈ T)) dt (alphaOf m k).
Proof.
  induction 1 as [|k0 l Hnotin Hnd IH]; intros k Hk.
  - inversion Hk.
  - simpl. destruct (decide (k0 = k)) as [->|Hne].
    + rewrite updateKey_lookup. f_equal. unfold alphaOf.
      rewrite (proj2 (fold_updateKey T dt m l Hnd k) Hnotin). reflexivity.
    + rewrite updateKey_other by exact Hne.
      apply IH. inversion Hk; subst; [congruence | assumption].
Qed.

Lemma updateAlpha_lookup (T : gset string) (dt : Q) (m : gmap string Q) (k : string) :
  k ∈ dom m ∪ T ->
  updateAlpha T dt m !! k = storedAlpha (bool_decide (k ∈ T)) dt (alphaOf m k).
Proof.
  intros Hk. unfold updateAlpha. cbv zeta.
  apply (fold_updateKey_lookup T dt m _ (NoDup_elements _) k).
  apply elem_of_elements. exact Hk.
Qed.

Lemma updateAlpha_untargeted (T : gset string) (dt : Q) (m : gmap string Q)
    (k : string) (a : Q) :
  k ∉ T -> updateAlpha T dt m !! k = Some a ->
  0 < a /\ k ∈ dom m /\ a = Qmax 0 (alphaOf m k - 3 * dt).
Proof.
  intros Hk Ha.
  destruct (decide (k ∈ dom m ∪ T)) as [Hin|Hout];
    [|rewrite (updateAlpha_absent T dt m k Hout) in Ha; discriminate].
  rewrite (updateAlpha_lookup T dt m k Hin) in Ha.
  rewrite (bool_decide_eq_false_2 _ Hk) in Ha. unfold storedAlpha in Ha.
  destruct (leb (faded false dt (alphaOf m k)) 0) eqn:E; [discriminate|].
  injection Ha as <-. split; [|split; [|reflexivity]].
  - apply Qnot_le_lt. intros H. apply Qle_bool_iff in H.
    unfold leb, faded in E. congruence.
  - apply elem_of_union in Hin. destruct Hin; [assumption | contradiction].
Qed.

Lemma updateAlpha_faded_out (T : gset string) (dt : Q) (m : gmap string Q) (k : string) :
  k ∉ T -> alphaOf m k - 3 * dt <= 0 -> updateAlpha T dt m !! k = None.
Proof.
  intros Hk Hz.
  destruct (updateAlpha T dt m !! k) as [a|] eqn:E; [|reflexivity].
  destruct (updateAlpha_untargeted T dt m k a Hk E) as (Hpos & _ & ->).
  exfalso. revert Hpos. qminmax; lra.
Qed.

(** X23: after an update every targeted key is stored; an untargeted key
    is stored only if it was stored before and its alpha stays positive; an
    untargeted key whose alpha reaches 0 is removed; no other key appears. *)
Theorem updateAlpha_prunes_faded_keys (T : gset string) (dt : Q) (m : gmap string Q) :
  (forall k, k ∈ T -> updateAlpha T dt m !! k = Some (Qmin 1 (alphaOf m k + 4 * dt)))
  /\ (forall k a, k ∉ T -> updateAlpha T dt m !! k = Some a ->
        0 < a /\ k ∈ dom m /\ a = Qmax 0 (alphaOf m k - 3 * dt))
  /\ (forall k, k ∉ T -> alphaOf m k - 3 * dt <= 0 -> updateAlpha T dt m !! k = None)
  /\ dom (updateAlpha T dt m) ⊆ dom m ∪ T.
Proof.
  split; [|split; [|split]].
  - intros k Hk. rewrite (updateAlpha_lookup T dt m k) by (apply elem_of_union_r, Hk).
    rewrite (bool_decide_eq_true_2 _ Hk). reflexivity.
  - intros k a. apply updateAlpha_untargeted.
  - intros k. apply updateAlpha_faded_out.
  - intros k Hk. apply elem_of_dom in Hk. destruct Hk as [a Ha].
    destruct (decide (k ∈ dom m ∪ T)) as [Hin|Hout]; [exact Hin|].
    rewrite (updateAlpha_absent T dt m k Hout) in Ha. discriminate.
Qed.

Lemma updateAlpha_alpha (T : gset string) (dt : Q) (m : gmap string Q) (k : string) :
  0 <= dt ->
  alphaOf (updateAlpha T dt m) k = faded (bool_decide (k ∈ T)) dt (alphaOf m k).
Proof.
  intros Hdt. destruct (decide (k ∈ dom m ∪ T)) as [Hin|Hout].
  - apply updateAlpha_key, Hin.
  - unfold alphaOf at 1. rewrite (updateAlpha_absent T dt m k Hout). simpl.
    assert (Hm : m !! k = None).
    { apply not_elem_of_dom. intros H. apply Hout, elem_of_union_l, H. }
    assert (Hk : k ∉ T) by (intros H; apply Hout, elem_of_union_r, H).
    rewrite (bool_decide_eq_false_2 _ Hk).
    unfold alphaOf. rewrite Hm. simpl. unfold faded.
    unfold Qmax, GenericMinMax.gmax. destruct (0 ?= 0 - 3 * dt) eqn:E; try reflexivity.
    apply Qlt_alt in E. lra.
Qed.

Lemma updateTimes_unit (T : gset string) (dt : Q) (m : gmap string Q) (k : string)
    (n : nat) :
  0 <= dt -> 0 <= alphaOf m k -> alphaOf m k <= 1 ->
  0 <= alphaOf (updateTimes n T dt m) k /\ alphaOf (updateTimes n T dt m) k <= 1.
Proof.
  intros Hdt L U. induction n as [|n IH].
  - change (updateTimes 0 T dt m) with m. split; assumption.
  - unfold updateTimes in *. simpl. rewrite updateAlpha_alpha by exact Hdt.
    destruct IH as [L' U']. apply faded_unit; assumption.
Qed.

Lemma updateTimes_step (T : gset string) (dt : Q) (m : gmap string Q) (k : string)
    (n : nat) :
  0 <= dt ->
  alphaOf (updateTimes (S n) T dt m) k
  = faded (bool_decide (k ∈ T)) dt (alphaOf (updateTimes n T dt m) k).
Proof.
  intros Hdt. unfold updateTimes. simpl. apply updateAlpha_alpha. exact Hdt.
Qed.

(** X24: over repeated updates with the same target set and a time step
    that is not negative, the alpha of a key targeted throughout never
    decreases and stays between its first value and 1; the alpha of a key
    untargeted throughout never increases and stays between 0 and its first
    value. *)
Theorem fade_is_monotone (T : gset string) (dt : Q) (m : gmap string Q)
    (k : string) (n : nat) :
  0 <= dt -> 0 <= alphaOf m k -> alphaOf m k <= 1 ->
  (k ∈ T ->
     alphaOf (updateTimes n T dt m) k <= alphaOf (updateTimes (S n) T dt m) k
     /\ alphaOf m k <= alphaOf (updateTimes n T dt m) k
     /\ alphaOf (updateTimes n T dt m) k <= 1)
  /\ (k ∉ T ->
      alphaOf (updateTimes (S n) T dt m) k <= alphaOf (updateTimes n T dt m) k
      /\ alphaOf (updateTimes n T dt m) k <= alphaOf m k
      /\ 0 <= alphaOf (updateTimes n T dt m) k).
Proof.
  intros Hdt L U.
  assert (R : forall i, 0 <= alphaOf (updateTimes i T dt m) k
                        /\ alphaOf (updateTimes i T dt m) k <= 1)
    by (intros i; apply updateTimes_unit; assumption).
  split; intros Hk.
  - assert (Step : forall i, alphaOf (updateTimes i T dt m) k
                             <= alphaOf (updateTimes (S i) T dt m) k).
    { intros i. rewrite updateTimes_step by exact Hdt.
      rewrite (bool_decide_eq_true_2 _ Hk). unfold faded.
      destruct (R i) as [Li Ui]. revert Li Ui.
      generalize (alphaOf (updateTimes i T dt m) k). intros a Li Ui.
      qminmax; lra. }
    split; [apply Step|]. split; [|apply R].
    induction n as [|n IH]; [change (updateTimes 0 T dt m) with m; apply Qle_refl|].
    apply Qle_trans with (alphaOf (updateTimes n T dt m) k); [exact IH | apply Step].
  - assert (Step : forall i, alphaOf (updateTimes (S i) T dt m) k
                             <= alphaOf (updateTimes i T dt m) k).
    { intros i. rewrite updateTimes_step by exact Hdt.
      rewrite (bool_decide_eq_false_2 _ Hk). unfold faded.
      destruct (R i) as [Li Ui]. revert Li Ui.
      generalize (alphaOf (updateTimes i T dt m) k). intros a Li Ui.
      qminmax; lra. }
    split; [apply Step|]. split; [|apply R].
    induction n as [|n IH]; [change (updateTimes 0 T dt m) with m; apply Qle_refl|].
    apply Qle_trans with (alphaOf (updateTimes n T dt m) k); [apply Step | exact IH].
Qed.

(** A pool whose only slot is taken on a viewport as high as the label. *)
Lemma findNonOverlappingY_gives_up_only_when_full_witness :
  let r := {| x := 0; y := 0; w := 10; h := 24 |} in
  findNonOverlappingY r [r] 24 3 = None
  /\ overlapsPool [r] (withY r (probeY r 24 1)) = true.
Proof.
  intros r.
  assert (A : findNonOverlappingY r [r] 24 3 = None) by (vm_compute; reflexivity).
  split; [exact A|].
  exact (findNonOverlappingY_gives_up_only_when_full r [r] 24 3 A 1%Z
           ltac:(vm_compute; discriminate)).
Defined.

(** The theorem for a key at alpha 1/2, targeted for frames of a sixtieth
    of a second: the fourth update does not lower what the third left. *)
Lemma fade_is_monotone_witness :
  let m : gmap string Q := {[ "A|X" := 1 # 2 ]} in
  let T : gset string := {[ "A|X" ]} in
  0 <= 1 # 60 /\ 0 <= alphaOf m "A|X" /\ alphaOf m "A|X" <= 1
  /\ alphaOf (updateTimes 3 T (1 # 60) m) "A|X"
     <= alphaOf (updateTimes 4 T (1 # 60) m) "A|X".
Proof.
  intros m T.
  assert (A : 0 <= 1 # 60) by qeval.
  assert (B : 0 <= alphaOf m "A|X") by qeval.
  assert (C : alphaOf m "A|X" <= 1) by qeval.
  split; [exact A|]. split; [exact B|]. split; [exact C|].
  pose proof (fade_is_monotone T (1 # 60) m "A|X" 3 A B C) as H.
  destruct H as (H & _).
  exact (proj1 (H ltac:(apply elem_of_singleton; reflexivity))).
Defined.

(** X25: over any sequence of frames whose times never decrease, stored
    alphas that start in [0, 1] stay in [0, 1], and the time of the last
    frame is remembered. *)
Theorem frames_keep_alphas_in_unit (host : Host) (frames : list (RendererInput * Q))
    (fs : FrameState) :
  nondecreasing (lastNow fs) (map snd frames) ->
  unit_alphas (labelAlpha fs) ->
  unit_alphas (labelAlpha (runFrames host fs frames))
  /\ lastNow (runFrames host fs frames) = List.last (map snd frames) (lastNow fs).
Proof.
  unfold runFrames. revert fs.
  induction frames as [|[input now] frames IH]; intros fs Hn Hu.
  - split; [exact Hu | reflexivity].
  - destruct Hn as [Hle Hn]. cbn [foldl fst snd].
    destruct (IH (snd (render host input now fs)) Hn
                (render_keeps_unit_alphas host input now fs Hle Hu)) as [U L].
    split; [exact U|]. rewrite L. cbn [map snd].
    destruct (map snd frames) as [|t l]; [reflexivity|].
    change (List.last (now :: t :: l) (lastNow fs))
      with (List.last (t :: l) (lastNow fs)).
    generalize (lastNow fs). clear. revert t.
    induction l as [|t1 l IHl]; intros t d; [reflexivity|].
    change (List.last (t :: t1 :: l) now) with (List.last (t1 :: l) now).
    change (List.last (t :: t1 :: l) d) with (List.last (t1 :: l) d).
    apply IHl.
Qed.

(** Two frames 16 ms apart, starting with one stored alpha of 1/2. *)
Lemma frames_keep_alphas_in_unit_witness :
  let fs := {| labelAlpha := {[ "A|X" := 1 # 2 ]}; lastNow := 1000 |} in
  let frames := [(Sample.crowded, 1016); (Sample.sideways, 1032)] in
  nondecreasing (lastNow fs) (map snd frames) /\ unit_alphas (labelAlpha fs)
  /\ unit_alphas (labelAlpha (runFrames Sample.host fs frames)).
Proof.
  intros fs frames.
  assert (A : nondecreasing (lastNow fs) (map snd frames))
    by (repeat split; qeval).
  assert (B : unit_alphas (labelAlpha fs))
    by (apply singleton_unit_alphas; qeval).
  split; [exact A|]. split; [exact B|].
  exact (proj1 (frames_keep_alphas_in_unit Sample.host frames fs A B)).
Defined.

End RendererExtras.

(** ** main.ts *)

Module MainExtras.
Import Js Main.

Lemma sum_at_least_length (l : list Q) (acc : Q) :
  Forall (fun s => 1 <= s) l ->
  acc + inject_Z (Z.of_nat (length l)) <= fold_left Qplus l acc.
Proof.
  intros F. revert acc. induction F as [|s l Hs _ IH]; intros acc.
  - cbn [length fold_left]. change (inject_Z (Z.of_nat 0)) with 0. lra.
  - cbn [length fold_left]. rewrite Nat2Z.inj_succ. unfold Z.succ.
    rewrite inject_Z_plus. change (inject_Z 1) with 1.
    specialize (IH (acc + s)). lra.
Qed.

Lemma onSample_ok (r : RateMeter) (now : Q) : meterOk r -> meterOk (onSample r now).
Proof.
  intros (Len & All & Fr & Sh). unfold onSample. cbv zeta.
  destruct (ltb 1000 (now - lastEmitTs r)).
  - set (pushed := rateSamples r ++ [frames r + 1]).
    set (samples := if (4 <? length pushed)%nat then tail pushed else pushed).
    assert (Hp : Forall (fun s => 1 <= s) pushed).
    { apply Forall_app. split; [exact All|]. constructor; [lra | constructor]. }
    assert (Hlp : length pushed = S (length (rateSamples r))).
    { unfold pushed. rewrite length_app. simpl. lia. }
    assert (Hs : Forall (fun s => 1 <= s) samples
                 /\ (1 <= length samples <= 4)%nat).
    { unfold samples. destruct (4 <? length pushed)%nat eqn:E.
      - apply Nat.ltb_lt in E. destruct pushed as [|p0 rest]; simpl in *; [lia|].
        split; [inversion Hp; assumption | lia].
      - apply Nat.ltb_ge in E. split; [exact Hp | lia]. }
    destruct Hs as [Hs [Hl1 Hl4]].
    split; [exact Hl4|]. split; [exact Hs|]. split; [simpl; lra|].
    simpl. intros avg [= <-].
    pose proof (sum_at_least_length samples 0 Hs) as Sum.
    assert (Hn : 0 < inject_Z (Z.of_nat (length samples)))
      by (change 0 with (inject_Z 0); rewrite <- Zlt_Qlt; lia).
    apply Qle_shift_div_l; [exact Hn | lra].
  - split; [exact Len|]. split; [exact All|]. split; [simpl; lra | exact Sh].
Qed.

(** X26: whatever the times of the samples, the meter keeps at most four
    counts, each at least 1; an average handed to [updateDebug] is at least
    1; and until one is handed over the window is empty. *)
Theorem rate_window_holds_four_counts (start : Q) (nows : list Q) :
  let r := foldl onSample (initialMeter start) nows in
  (length (rateSamples r) <= 4)%nat
  /\ Forall (fun s => 1 <= s) (rateSamples r)
  /\ (forall avg, shownRate r = Some avg -> 1 <= avg)
  /\ (shownRate r = None -> rateSamples r = []).
Proof.
  assert (G : forall nows r, meterOk r /\ (shownRate r = None -> rateSamples r = []) ->
            meterOk (foldl onSample r nows)
            /\ (shownRate (foldl onSample r nows) = None
                -> rateSamples (foldl onSample r nows) = [])).
  { clear. intros nows. induction nows as [|now nows IH]; intros r [Ok Em]; simpl.
    - split; assumption.
    - apply IH. split; [apply onSample_ok, Ok|].
      unfold onSample. cbv zeta. destruct (ltb 1000 (now - lastEmitTs r)); simpl.
      + discriminate.
      + exact Em. }
  intros r.
  destruct (G nows (initialMeter start)) as [(L & A & _ & S) E].
  { split; [|reflexivity]. split; [simpl; lia|]. split; [constructor|].
    split; [simpl; lra | discriminate]. }
  repeat split; assumption.
Qed.

End MainExtras.
